(** * Tic-tac-toe decision engine: board rules and minimax search

    Shallow embedding of [server/api/routes/game_routes.py]: the [Board]
    class, [switch_player], [minimax] and the [ai_move] endpoint.

    Python list objects live in a heap, so that aliasing and in-place
    mutation ([make_move], [new_grid[move_index] = ai_player]) are
    visible; exceptions are explicit outcomes. *)

From stdpp Require Import gmap strings list sorting.

Open Scope Z_scope.

(** ** Constants *)

Definition DIMENSIONS : nat := 3.
Definition DRAW : Z := 0.
Definition PLAYER_X : Z := 1.
Definition PLAYER_O : Z := 2.

Definition SCORES : gmap Z Z :=
  <[PLAYER_X := 1]> (<[DRAW := 0]> (<[PLAYER_O := -1]> ∅)).

(** A square of the grid: [None], or the integer found in the JSON payload. *)
Abbreviation cell := (option Z).

(** ** Outcomes of a computation

    [Raise] is a Python exception.  [OutOfFuel] and [BadRef] belong to the
    model only: the recursion budget ran out, or a reference points outside
    the heap. *)

Inductive exn := IndexError | KeyError.

Inductive outcome (A : Type) :=
  | Ret (a : A)
  | Raise (e : exn)
  | OutOfFuel
  | BadRef.
Arguments Ret {A} a.
Arguments Raise {A} e.
Arguments OutOfFuel {A}.
Arguments BadRef {A}.

Definition outcome_bind {A B} (f : A → outcome B) (o : outcome A) : outcome B :=
  match o with
  | Ret a => f a
  | Raise e => Raise e
  | OutOfFuel => OutOfFuel
  | BadRef => BadRef
  end.

#[global] Instance outcome_mret : MRet outcome := @Ret.
#[global] Instance outcome_mbind : MBind outcome := @outcome_bind.

(** [l[k]]; every index in the file is a non-negative constant, an empty
    square or a draw in [0, 8]. *)
Definition index {A} (l : list A) (k : nat) : outcome A :=
  match l !! k with
  | Some x => Ret x
  | None => Raise IndexError
  end.

(** [d[k]] for a dictionary. *)
Definition subscript (d : gmap Z Z) (k : Z) : outcome Z :=
  match d !! k with
  | Some v => Ret v
  | None => Raise KeyError
  end.

(** ** Computations on the contents of a grid *)

(** [[i for i, square in enumerate(grid) if square is None]], the
    enumeration counter starting at [i]. *)
Fixpoint empty_from (i : nat) (grid : list cell) : list nat :=
  match grid with
  | [] => []
  | None :: rest => i :: empty_from (S i) rest
  | Some _ :: rest => empty_from (S i) rest
  end.

Definition empty_squares (grid : list cell) : list nat := empty_from 0 grid.

Definition winning_combos : list (nat * nat * nat) :=
  [ (0, 1, 2); (3, 4, 5); (6, 7, 8);
    (0, 3, 6); (1, 4, 7); (2, 5, 8);
    (0, 4, 8); (2, 4, 6) ]%nat.

(** The test of the loop body of [get_winner], with Python's left-to-right,
    short-circuit evaluation:
    [grid[c0] is not None and grid[c0] == grid[c1] == grid[c2]]. *)
Definition combo_wins (grid : list cell) (combo : nat * nat * nat)
  : outcome (option Z) :=
  let '(c0, c1, c2) := combo in
  a ← index grid c0;
  match a with
  | None => Ret None
  | Some v =>
      b ← index grid c1;
      if decide (a = b) then
        c ← index grid c2;
        if decide (b = c) then Ret (Some v) else Ret None
      else Ret None
  end.

(** [for i, combo in enumerate(winning_combos): ... return grid[combo[0]]],
    the counter starting at [i]; [None] when the loop falls through. *)
Fixpoint scan_combos (grid : list cell) (i : nat)
  (combos : list (nat * nat * nat)) : outcome (option (nat * Z)) :=
  match combos with
  | [] => Ret None
  | combo :: rest =>
      w ← combo_wins grid combo;
      match w with
      | Some v => Ret (Some (i, v))
      | None => scan_combos grid (S i) rest
      end
  end.

Definition switch_player (player : Z) : Z :=
  if decide (player = PLAYER_X) then PLAYER_O else PLAYER_X.

(** ** The heap of list objects *)

Abbreviation loc := positive.
Abbreviation heap := (gmap loc (list cell)).

Definition M (A : Type) : Type := heap → outcome A * heap.

Definition M_ret {A} (a : A) : M A := λ h, (Ret a, h).

Definition M_bind {A B} (f : A → M B) (m : M A) : M B :=
  λ h, match m h with
       | (Ret a, h') => f a h'
       | (Raise e, h') => (Raise e, h')
       | (OutOfFuel, h') => (OutOfFuel, h')
       | (BadRef, h') => (BadRef, h')
       end.

#[global] Instance M_mret : MRet M := @M_ret.
#[global] Instance M_mbind : MBind M := @M_bind.

Definition lift {A} (o : outcome A) : M A := λ h, (o, h).

(** Reading the list a reference points to. *)
Definition deref (l : loc) : M (list cell) :=
  λ h, match h !! l with
       | Some g => (Ret g, h)
       | None => (BadRef, h)
       end.

(** Overwriting the list object at [l]. *)
Definition store (l : loc) (g : list cell) : M unit :=
  λ h, (Ret (), <[l := g]> h).

(** A new list object. *)
Definition alloc (g : list cell) : M loc :=
  λ h, let l := fresh (dom h) in (Ret l, <[l := g]> h).

(** [l.copy()] *)
Definition list_copy (l : loc) : M loc := g ← deref l; alloc g.

(** [l[k] = v] *)
Definition setitem (l : loc) (k : nat) (v : cell) : M unit :=
  g ← deref l;
  _ ← lift (index g k);
  store l (<[k := v]> g).

(** [try: m except Exception as e: handler(e)] *)
Definition try_except {A} (m : M A) (handler : exn → M A) : M A :=
  λ h, match m h with
       | (Raise e, h') => handler e h'
       | r => r
       end.

(** ** class Board

    [grid] is a reference to a list object; [winning_index] is the
    attribute of the same name.  A method that assigns to an attribute of
    [self] returns the updated object. *)

Record Board := { grid : loc; winning_index : option nat }.

Definition Board_init (grid : option loc) : M Board :=
  match grid with
  | Some l => mret {| grid := l; winning_index := None |}
  | None =>
      l ← alloc (replicate (DIMENSIONS ^ 2) None);
      mret {| grid := l; winning_index := None |}
  end.

Definition make_move (self : Board) (square : nat) (player : Z) : M unit :=
  g ← deref (grid self);
  c ← lift (index g square);
  match c with
  | None => store (grid self) (<[square := Some player]> g)
  | Some _ => mret ()
  end.

(** Every call in the file leaves out the optional [grid] argument of
    [get_empty_squares] and [get_winner], or passes [self.grid]. *)
Definition get_empty_squares (self : Board) : M (list nat) :=
  g ← deref (grid self);
  mret (empty_squares g).

Definition is_empty (self : Board) : M bool :=
  squares ← get_empty_squares self;
  mret (bool_decide (length squares = DIMENSIONS ^ 2)%nat).

Definition get_winner (self : Board) : M (option Z * Board) :=
  g ← deref (grid self);
  r ← lift (scan_combos g 0 winning_combos);
  match r with
  | Some (i, v) =>
      mret (Some v, {| grid := grid self; winning_index := Some i |})
  | None =>
      if decide (length (empty_squares g) = 0%nat)
      then mret (Some DRAW, {| grid := grid self; winning_index := None |})
      else mret (None, self)
  end.

Definition clone (self : Board) : M Board :=
  l ← list_copy (grid self);
  Board_init (Some l).

(** ** minimax

    [fuel] bounds the nesting of calls; Python has no such bound, and
    theorem [minimax_terminates] shows that a budget above the number of
    empty squares is never used up.  The call of [get_winner] records a
    winning line in [board]; no caller of [minimax] reads that attribute
    afterwards, and the result is the Python return value alone. *)

(** [for square in squares: ...] of [minimax], carrying [max_score] and
    [best_move]; [rec] is the recursive call. *)
Fixpoint minimax_loop (rec : Board → M (Z * option nat))
  (board : Board) (player multiplier : Z) (squares : list nat)
  (max_score : Z) (best_move : option nat) : M (Z * option nat) :=
  match squares with
  | [] => mret (max_score, best_move)
  | square :: rest =>
      board_copy ← clone board;
      _ ← make_move board_copy square player;
      r ← rec board_copy;
      let score := multiplier * r.1 in
      if decide (score >= max_score)
      then minimax_loop rec board player multiplier rest score (Some square)
      else minimax_loop rec board player multiplier rest max_score best_move
  end.

Fixpoint minimax (fuel : nat) (board : Board) (player : Z)
  : M (Z * option nat) :=
  match fuel with
  | O => lift OutOfFuel
  | S fuel' =>
      multiplier ← lift (subscript SCORES player);
      '(winner, board) ← get_winner board;
      match winner with
      | Some winner => s ← lift (subscript SCORES winner); mret (s, None)
      | None =>
          squares ← get_empty_squares board;
          r ← minimax_loop (λ b, minimax fuel' b (switch_player player))
                board player multiplier squares (-1) None;
          mret (multiplier * r.1, r.2)
      end
  end.

(** ** The [/ai/move] endpoint *)

Definition GAME_MODES : gmap string string :=
  <["easy" := "easy"]>
    (<["medium" := "medium"]> (<["difficult" := "difficult"]> ∅)).

(** [d.values()] *)
Definition values (d : gmap string string) : list string :=
  (map_to_list d).*2.

(** [d[k]] for the mode table. *)
Definition mode_of (d : gmap string string) (k : string) : outcome string :=
  match d !! k with
  | Some v => Ret v
  | None => Raise KeyError
  end.

(** The draws of the [random] module one request can consume:
    [random.choice(l)] is [l[choice_draw mod len(l)]],
    [random.random() < 0.5] is [random_lt_half], and
    [random.randint(0, 8)] is [randint_draw mod 9]. *)
Record rand := {
  choice_draw : nat;
  random_lt_half : bool;
  randint_draw : nat
}.

Definition random_choice (rnd : rand) (l : list nat) : outcome nat :=
  index l (choice_draw rnd mod length l)%nat.

Definition random_randint_0_8 (rnd : rand) : nat :=
  (randint_draw rnd mod 9)%nat.

(** The fields read with [data.get].  [p_grid] and [p_ai_player] are [None]
    when the key is missing or null; [p_mode] is [None] when the key is
    missing, in which case ['difficult'] is used.  [grid] is a reference to
    the list decoded from the request. *)
Record payload := {
  p_grid : option loc;
  p_ai_player : option Z;
  p_mode : option string
}.

(** The JSON answers: the success object, a failure with its status and
    message, and the answer of the catch-all handler (status 500,
    ['Server error: ' + str(e)]). *)
Inductive response :=
  | Success (move_index : nat) (new_grid : list cell) (ai_player : Z)
  | Failure (status : nat) (message : string)
  | ServerError (e : exn).

(** [data] is [None] when [request.json] is falsy. *)
Definition ai_move (fuel : nat) (rnd : rand) (data : option payload)
  : M response :=
  try_except
    (match data with
     | None => mret (Failure 400 "No data provided")
     | Some data =>
         let mode := default "difficult"%string (p_mode data) in
         match p_grid data, p_ai_player data with
         | Some grid, Some ai_player =>
             g ← deref grid;
             if decide (length g ≠ 9%nat) then
               mret (Failure 400 "Grid must have exactly 9 elements")
             else if decide (ai_player ∉ [PLAYER_X; PLAYER_O]) then
               mret (Failure 400 "ai_player must be 1 (X) or 2 (O)")
             else if decide (mode ∉ values GAME_MODES) then
               mret (Failure 400 "Invalid mode. Use: easy, medium, or difficult")
             else
               l ← list_copy grid;
               board ← Board_init (Some l);
               empty_squares ← get_empty_squares board;
               if decide (empty_squares = []) then
                 mret (Failure 400 "No valid moves available")
               else
                 easy ← lift (mode_of GAME_MODES "easy");
                 move_index ←
                   (if decide (mode = easy) then
                      m ← lift (random_choice rnd empty_squares); mret (Some m)
                    else
                      medium ← lift (mode_of GAME_MODES "medium");
                      if decide (mode = medium) then
                        e ← is_empty board;
                        if e || random_lt_half rnd then
                          m ← lift (random_choice rnd empty_squares);
                          mret (Some m)
                        else
                          r ← minimax fuel board ai_player; mret (r.2)
                      else
                        e ← is_empty board;
                        if (e : bool) then mret (Some (random_randint_0_8 rnd))
                        else r ← minimax fuel board ai_player; mret (r.2)
                    : M (option nat));
                 match move_index with
                 | Some m =>
                     if decide (m ∈ empty_squares) then
                       new_grid ← list_copy grid;
                       _ ← setitem new_grid m (Some ai_player);
                       g' ← deref new_grid;
                       mret (Success m g' ai_player)
                     else mret (Failure 500 "Unable to determine valid move")
                 | None => mret (Failure 500 "Unable to determine valid move")
                 end
         | _, _ =>
             mret (Failure 400 "Missing required fields: grid, ai_player")
         end
     end)
    (λ e, M_ret (ServerError e)).

(** The two blocks of [ai_move] that follow validation, as functions of
    the variables they read; lemma [ai_move_prefix] shows that a request
    which passes validation is answered by the one followed by the other. *)

(** [# AI Logic based on mode]: the value given to [move_index]. *)
Definition choose_move (fuel : nat) (rnd : rand) (mode : string)
  (board : Board) (ai_player : Z) (empty_squares : list nat)
  : M (option nat) :=
  easy ← lift (mode_of GAME_MODES "easy");
  if decide (mode = easy) then
    m ← lift (random_choice rnd empty_squares); mret (Some m)
  else
    medium ← lift (mode_of GAME_MODES "medium");
    if decide (mode = medium) then
      e ← is_empty board;
      if e || random_lt_half rnd then
        m ← lift (random_choice rnd empty_squares); mret (Some m)
      else r ← minimax fuel board ai_player; mret (r.2)
    else
      e ← is_empty board;
      if (e : bool) then mret (Some (random_randint_0_8 rnd))
      else r ← minimax fuel board ai_player; mret (r.2).

(** [# Make the move]: the answer for a given [move_index]. *)
Definition apply_move (grid : loc) (ai_player : Z) (empty_squares : list nat)
  (move_index : option nat) : M response :=
  match move_index with
  | Some m =>
      if decide (m ∈ empty_squares) then
        new_grid ← list_copy grid;
        _ ← setitem new_grid m (Some ai_player);
        g' ← deref new_grid;
        mret (Success m g' ai_player)
      else mret (Failure 500 "Unable to determine valid move")
  | None => mret (Failure 500 "Unable to determine valid move")
  end.

(** ** The [/game/check_winner] endpoint *)

(** The JSON answers of [check_winner]: the result object with its four
    fields, a failure with its status and message, and the answer of the
    catch-all handler. *)
Inductive winner_response :=
  | WinnerResult (winner : option Z) (game_over : bool)
      (winning_index : option nat) (winner_name : option string)
  | WinnerFailure (status : nat) (message : string)
  | WinnerServerError (e : exn).

(** The [if]/[elif] chain that fills [result['winner_name']]. *)
Definition winner_name_of (winner : option Z) : option string :=
  if decide (winner = Some PLAYER_X) then Some "Player X"%string
  else if decide (winner = Some PLAYER_O) then Some "Player O"%string
  else if decide (winner = Some DRAW) then Some "Draw"%string
  else None.

(** [data] is [None] when [request.json] is falsy; only the field [grid] of
    the payload is read.  [Board(grid)] keeps the reference: no copy. *)
Definition check_winner (data : option payload) : M winner_response :=
  try_except
    (match data with
     | None => mret (WinnerFailure 400 "No data provided")
     | Some data =>
         match p_grid data with
         | None => mret (WinnerFailure 400 "Missing required field: grid")
         | Some grid =>
             g ← deref grid;
             if decide (length g ≠ 9%nat) then
               mret (WinnerFailure 400 "Grid must have exactly 9 elements")
             else
               board ← Board_init (Some grid);
               '(winner, board) ← get_winner board;
               mret (WinnerResult winner (bool_decide (winner ≠ None))
                       (winning_index board) (winner_name_of winner))
         end
     end)
    (λ e, M_ret (WinnerServerError e)).

(** ** The [/game/reset] endpoint *)

Inductive reset_response :=
  | ResetOk (grid : list cell) (message : string)
  | ResetServerError (e : exn).

Definition reset_game : M reset_response :=
  try_except
    (fresh_grid ← alloc (replicate 9 None);
     g ← deref fresh_grid;
     mret (ResetOk g "Game reset successfully"))
    (λ e, M_ret (ResetServerError e)).

(** ** The search on grid contents

    [make_move] on a clone, [get_winner] and [minimax] read as functions of
    the cells alone.  Lemma [minimax_refines] shows that [minimax] on the
    heap returns what [minimax_val] returns on the contents of
    [board.grid], and leaves every list that existed before as it was. *)

(** The value [get_winner] returns. *)
Definition winner_of (grid : list cell) : outcome (option Z) :=
  r ← scan_combos grid 0 winning_combos;
  match r with
  | Some (i, v) => Ret (Some v)
  | None =>
      if decide (length (empty_squares grid) = 0%nat)
      then Ret (Some DRAW)
      else Ret None
  end.

(** [self.grid[square] = player] if the square is empty, on the contents. *)
Definition mark (grid : list cell) (square : nat) (player : Z)
  : outcome (list cell) :=
  c ← index grid square;
  match c with
  | None => Ret (<[square := Some player]> grid)
  | Some _ => Ret grid
  end.

(** The loop of [minimax] over the empty squares, on grid contents; [rec]
    is the recursive call. *)
Fixpoint search_loop (rec : list cell → outcome (Z * option nat))
  (grid : list cell) (player multiplier : Z) (squares : list nat)
  (max_score : Z) (best_move : option nat) : outcome (Z * option nat) :=
  match squares with
  | [] => Ret (max_score, best_move)
  | square :: rest =>
      board_copy ← mark grid square player;
      r ← rec board_copy;
      let score := multiplier * r.1 in
      if decide (score >= max_score)
      then search_loop rec grid player multiplier rest score (Some square)
      else search_loop rec grid player multiplier rest max_score best_move
  end.

(** [minimax] as a function of the contents of [board.grid]. *)
Fixpoint minimax_val (fuel : nat) (grid : list cell) (player : Z)
  : outcome (Z * option nat) :=
  match fuel with
  | O => OutOfFuel
  | S fuel' =>
      multiplier ← subscript SCORES player;
      w ← winner_of grid;
      match w with
      | Some winner => s ← subscript SCORES winner; Ret (s, None)
      | None =>
          r ← search_loop (λ g, minimax_val fuel' g (switch_player player))
                grid player multiplier (empty_squares grid) (-1) None;
          Ret (multiplier * r.1, r.2)
      end
  end.

(** ** Vocabulary of the statements *)

(** The three cell values of a real game. *)
Definition valid_cell (c : cell) : Prop :=
  c = None ∨ c = Some PLAYER_X ∨ c = Some PLAYER_O.

Definition valid_grid (g : list cell) : Prop :=
  length g = 9%nat ∧ Forall valid_cell g.

Definition valid_player (p : Z) : Prop := p = PLAYER_X ∨ p = PLAYER_O.

(** The three cells of [combo] hold the same mark [v]. *)
Definition line_won (g : list cell) (combo : nat * nat * nat) (v : Z) : Prop :=
  g !! combo.1.1 = Some (Some v) ∧
  g !! combo.1.2 = Some (Some v) ∧
  g !! combo.2 = Some (Some v).

(** The three indices of [combo] are indices of [g]. *)
Definition in_range (g : list cell) (combo : nat * nat * nat) : Prop :=
  (combo.1.1 < length g ∧ combo.1.2 < length g ∧ combo.2 < length g)%nat.

(** Line number [i] of the table is won by [v] and no earlier line is won. *)
Definition first_win (g : list cell) (i : nat) (v : Z) : Prop :=
  (∃ combo, winning_combos !! i = Some combo ∧ line_won g combo v) ∧
  ∀ j combo v', (j < i)%nat → winning_combos !! j = Some combo →
    ¬ line_won g combo v'.

Definition has_win (g : list cell) : Prop :=
  ∃ combo v, combo ∈ winning_combos ∧ line_won g combo v.

Definition has_empty (g : list cell) : Prop := ∃ k, g !! k = Some None.

Definition terminal (g : list cell) : Prop := has_win g ∨ ¬ has_empty g.

Definition n_empty (g : list cell) : nat := length (empty_squares g).

(** The value of moving to [square], seen from [player]: the score of the
    position after the move, weighted by the sign of [player]. *)
Definition child_value (fuel : nat) (g : list cell) (player : Z)
  (square : nat) : outcome Z :=
  multiplier ← subscript SCORES player;
  board_copy ← mark g square player;
  r ← minimax_val fuel board_copy (switch_player player);
  Ret (multiplier * r.1).

(** [k] is an empty square of greatest value and, among those, the one of
    lowest index: the tie-break the specification describes. *)
Definition first_best (fuel : nat) (g : list cell) (player : Z) (k : nat)
  : Prop :=
  g !! k = Some None ∧
  ∃ vk, child_value fuel g player k = Ret vk ∧
    ∀ sq, g !! sq = Some None →
      ∃ v, child_value fuel g player sq = Ret v ∧ v ≤ vk ∧
           (v = vk → (k ≤ sq)%nat).

(** The same with the highest index. *)
Definition last_best (fuel : nat) (g : list cell) (player : Z) (k : nat)
  : Prop :=
  g !! k = Some None ∧
  ∃ vk, child_value fuel g player k = Ret vk ∧
    ∀ sq, g !! sq = Some None →
      ∃ v, child_value fuel g player sq = Ret v ∧ v ≤ vk ∧
           (v = vk → (sq ≤ k)%nat).

(** The answers of the endpoint the error kinds stand for. *)
Definition InvalidDimension : response :=
  Failure 400 "Grid must have exactly 9 elements".
Definition InvalidPlayer : response :=
  Failure 400 "ai_player must be 1 (X) or 2 (O)".
Definition NoLegalMove : response :=
  Failure 400 "No valid moves available".
Definition InternalFailure : response :=
  Failure 500 "Unable to determine valid move".

(** A request carrying a grid and a player, and possibly a mode. *)
Definition request (l : loc) (ai_player : Z) (mode : option string)
  : option payload :=
  Some {| p_grid := Some l; p_ai_player := Some ai_player; p_mode := mode |}.

(** The computation came to an end: it returned or raised. *)
Definition finished {A} (o : outcome A) : Prop :=
  match o with
  | Ret _ | Raise _ => True
  | OutOfFuel | BadRef => False
  end.

(** A run of [make_move] calls on one board. *)
Fixpoint make_moves (b : Board) (moves : list (nat * Z)) : M unit :=
  match moves with
  | [] => mret ()
  | (square, player) :: rest =>
      _ ← make_move b square player; make_moves b rest
  end.

(** ** Sample positions *)

Definition cX : cell := Some PLAYER_X.
Definition cO : cell := Some PLAYER_O.

Definition empty_grid : list cell := replicate 9 None.

(** X X O / O O X / X . . : both replies of O lead to a draw. *)
Definition tie_grid : list cell :=
  [cX; cX; cO; cO; cO; cX; cX; None; None].

(** X X X / O O . / . . . : X has completed the first row. *)
Definition won_grid : list cell :=
  [cX; cX; cX; cO; cO; None; None; None; None].

(** O O O / X X . / X . . : O has completed the first row. *)
Definition lost_grid : list cell :=
  [cO; cO; cO; cX; cX; None; cX; None; None].

(** X O X / X O O / O X X : a full board without a line. *)
Definition full_grid : list cell :=
  [cX; cO; cX; cX; cO; cO; cO; cX; cX].

(** X X . / O O . / . . . *)
Definition open_grid : list cell :=
  [cX; cX; None; cO; cO; None; None; None; None].

(** A heap holding one list, and a board on it. *)
Definition heap_of (g : list cell) : heap := {[ 1%positive := g ]}.
Definition board_1 : Board := {| grid := 1%positive; winning_index := None |}.

Definition draws : rand :=
  {| choice_draw := 0; random_lt_half := false; randint_draw := 0 |}.

(** 7 7 7 / . . . / . . . : a completed row of a mark that is no player. *)
Definition odd_grid : list cell :=
  [Some 7; Some 7; Some 7; None; None; None; None; None; None].

(** * Properties *)

Arguments subscript : simpl never.
Arguments mode_of : simpl never.

(** ** Empty squares *)

Lemma elem_of_empty_from i g k :
  k ∈ empty_from i g ↔ ∃ j, k = (i + j)%nat ∧ g !! j = Some None.
Proof.
  revert i. induction g as [|c g IH]; intros i; simpl.
  - split; [by intros ?%elem_of_nil | by intros (j & _ & ?)].
  - assert (k ∈ empty_from (S i) g ↔
            ∃ j, k = (i + S j)%nat ∧ (c :: g) !! S j = Some None) as Hrest.
    { rewrite IH. split; intros (j & -> & Hj); exists j; split; auto; lia. }
    destruct c as [v|].
    + rewrite Hrest. split.
      * intros (j & -> & Hj). eauto.
      * intros ([|j] & -> & Hj); [done | eauto].
    + rewrite elem_of_cons, Hrest. split.
      * intros [-> | (j & -> & Hj)]; [exists 0%nat | exists (S j)];
          split; auto; lia.
      * intros ([|j] & -> & Hj); [left; lia | right; eauto].
Qed.

Lemma elem_of_empty_squares g k : k ∈ empty_squares g ↔ g !! k = Some None.
Proof.
  unfold empty_squares. rewrite elem_of_empty_from. split.
  - by intros (j & -> & Hj).
  - intros Hk. by exists k.
Qed.

Lemma empty_squares_nil g : empty_squares g = [] ↔ ¬ has_empty g.
Proof.
  split.
  - intros Hnil [k Hk%elem_of_empty_squares]. rewrite Hnil in Hk.
    by apply elem_of_nil in Hk.
  - intros Hno. destruct (empty_squares g) as [|k l] eqn:E; [done|].
    destruct Hno. exists k. apply elem_of_empty_squares. rewrite E. left.
Qed.

(** The empty squares come in strictly ascending order. *)
Lemma empty_from_sorted i g : StronglySorted lt (empty_from i g).
Proof.
  revert i. induction g as [|c g IH]; intros i; simpl; [constructor|].
  destruct c; [apply IH|]. constructor; [apply IH|].
  apply Forall_forall. intros k (j & -> & _)%elem_of_empty_from. lia.
Qed.

Lemma empty_squares_sorted g : StronglySorted lt (empty_squares g).
Proof. apply empty_from_sorted. Qed.

Lemma empty_from_length_le i g : (length (empty_from i g) ≤ length g)%nat.
Proof.
  revert i. induction g as [|[v|] g IH]; intros i; simpl; [lia| |];
    specialize (IH (S i)); lia.
Qed.

Lemma n_empty_le g : (n_empty g ≤ length g)%nat.
Proof. apply empty_from_length_le. Qed.

(** Marking an empty square removes exactly one empty square. *)
Lemma empty_from_insert i g k v :
  g !! k = Some None →
  S (length (empty_from i (<[k := Some v]> g))) = length (empty_from i g).
Proof.
  revert i k. induction g as [|c g IH]; intros i k Hk; [done|].
  destruct k as [|k]; simpl in *.
  - by simplify_eq.
  - destruct c; simpl; rewrite <- (IH (S i) k Hk); done.
Qed.

Lemma n_empty_insert g k v :
  g !! k = Some None → S (n_empty (<[k := Some v]> g)) = n_empty g.
Proof. apply empty_from_insert. Qed.

Lemma mark_empty g k p :
  g !! k = Some None → mark g k p = Ret (<[k := Some p]> g).
Proof. intros Hk. unfold mark, index. by rewrite Hk. Qed.

(** ** Scanning the winning lines *)

Lemma winning_combos_in_range g :
  length g = 9%nat → Forall (in_range g) winning_combos.
Proof.
  intros Hlen. unfold in_range. rewrite Hlen.
  repeat constructor; simpl; lia.
Qed.

Lemma combo_wins_spec g combo :
  in_range g combo →
  (∃ v, combo_wins g combo = Ret (Some v) ∧ line_won g combo v) ∨
  (combo_wins g combo = Ret None ∧ ∀ v, ¬ line_won g combo v).
Proof.
  destruct combo as [[c0 c1] c2]. unfold in_range, line_won; simpl.
  intros (H0 & H1 & H2).
  apply lookup_lt_is_Some_2 in H0 as [a Ha].
  apply lookup_lt_is_Some_2 in H1 as [b Hb].
  apply lookup_lt_is_Some_2 in H2 as [c Hc].
  unfold combo_wins, index. rewrite Ha. simpl.
  destruct a as [v|]; simpl.
  - rewrite Hb. simpl. destruct (decide (Some v = b)) as [<-|Hne].
    + rewrite Hc. simpl. destruct (decide (Some v = c)) as [<-|Hne].
      * left. by exists v.
      * right. split; [done|]. intros v' (? & ? & ?). congruence.
    + right. split; [done|]. intros v' (? & ? & ?). congruence.
  - right. split; [done|]. by intros v' (? & ? & ?).
Qed.

Lemma scan_combos_spec g i combos :
  Forall (in_range g) combos →
  (∃ k v combo,
      scan_combos g i combos = Ret (Some ((i + k)%nat, v)) ∧
      combos !! k = Some combo ∧ line_won g combo v ∧
      ∀ j c v', (j < k)%nat → combos !! j = Some c → ¬ line_won g c v') ∨
  (scan_combos g i combos = Ret None ∧
   ∀ c v, c ∈ combos → ¬ line_won g c v).
Proof.
  intros Hr. revert i. induction Hr as [|combo combos Hc Hr IH]; intros i.
  - right. split; [done|]. by intros c v ?%elem_of_nil.
  - simpl. destruct (combo_wins_spec g combo Hc) as [(v & -> & Hv)|[-> Hno]].
    + left. exists 0%nat, v, combo. simpl.
      replace (i + 0)%nat with i by lia.
      do 3 (split; [done|]). intros; lia.
    + simpl. destruct (IH (S i)) as [(k & v & c & -> & Hk & Hv & Hmin)|[-> Hrest]].
      * left. exists (S k), v, c.
        replace (i + S k)%nat with (S i + k)%nat by lia.
        do 3 (split; [done|]).
        intros [|j] c' v' Hj Hc'; simpl in Hc'.
        -- simplify_eq. apply Hno.
        -- apply (Hmin j); [lia | done].
      * right. split; [done|].
        intros c v [->|Hin]%elem_of_cons; [apply Hno | by apply Hrest].
Qed.

(** The three possible results of the scan on a 9-cell grid. *)
Lemma scan_winning_combos g :
  length g = 9%nat →
  (∃ i v, scan_combos g 0 winning_combos = Ret (Some (i, v)) ∧
          first_win g i v) ∨
  (scan_combos g 0 winning_combos = Ret None ∧ ¬ has_win g).
Proof.
  intros Hlen.
  destruct (scan_combos_spec g 0 winning_combos (winning_combos_in_range g Hlen))
    as [(k & v & c & Hs & Hk & Hv & Hmin)|[Hs Hno]].
  - left. exists k, v. split; [done|]. split; [by exists c | done].
  - right. split; [done|]. intros (c & v & Hin & Hv). by apply (Hno c v).
Qed.

Lemma first_win_has_win g i v : first_win g i v → has_win g.
Proof.
  intros [(c & Hc & Hv) _]. exists c, v. split; [|done].
  by apply list_elem_of_lookup_2 in Hc.
Qed.

(** On a 9-cell grid [winner_of] is [None] exactly for an ongoing game. *)
Lemma winner_of_spec g :
  length g = 9%nat →
  (∃ i v, winner_of g = Ret (Some v) ∧ first_win g i v) ∨
  (winner_of g = Ret (Some DRAW) ∧ ¬ has_win g ∧ ¬ has_empty g) ∨
  (winner_of g = Ret None ∧ ¬ has_win g ∧ has_empty g).
Proof.
  intros Hlen. unfold winner_of.
  destruct (scan_winning_combos g Hlen) as [(i & v & -> & Hw)|[-> Hno]]; simpl.
  - left. by exists i, v.
  - right. destruct (decide (length (empty_squares g) = 0%nat)) as [E|E].
    + left. repeat split; auto.
      apply empty_squares_nil. by apply nil_length_inv.
    + right. repeat split; auto.
      destruct (empty_squares g) as [|k l] eqn:Hk; [done|].
      exists k. apply elem_of_empty_squares. rewrite Hk. left.
Qed.

Lemma winner_of_terminal g :
  length g = 9%nat →
  (terminal g ∧ ∃ v, winner_of g = Ret (Some v) ∧
     (Forall valid_cell g → v = DRAW ∨ valid_player v)) ∨
  (¬ terminal g ∧ winner_of g = Ret None).
Proof.
  intros Hlen.
  destruct (winner_of_spec g Hlen)
    as [(i & v & Hw & Hf)|[(Hw & Hn & He)|(Hw & Hn & He)]].
  - left. split; [left; by eapply first_win_has_win|].
    exists v. split; [done|]. intros Hvalid. right.
    destruct Hf as [(c & _ & Hc & _) _].
    apply list_elem_of_lookup_2 in Hc.
    rewrite Forall_forall in Hvalid. specialize (Hvalid _ Hc).
    destruct Hvalid as [?|[?|?]]; simplify_eq; [by left | by right].
  - left. split; [by right|]. exists DRAW. split; [done|]. by left.
  - right. split; [|done]. intros [?|?]; done.
Qed.

(** ** The score table *)

Lemma SCORES_X : subscript SCORES PLAYER_X = Ret 1.
Proof. reflexivity. Qed.

Lemma SCORES_O : subscript SCORES PLAYER_O = Ret (-1).
Proof. reflexivity. Qed.

Lemma SCORES_DRAW : subscript SCORES DRAW = Ret 0.
Proof. reflexivity. Qed.

Lemma SCORES_player p :
  valid_player p → ∃ mult, subscript SCORES p = Ret mult ∧ (mult = 1 ∨ mult = -1).
Proof.
  intros [->| ->]; [exists 1 | exists (-1)]; (split; [|auto]).
  - apply SCORES_X.
  - apply SCORES_O.
Qed.

Lemma switch_player_valid p : valid_player (switch_player p).
Proof. unfold switch_player. destruct (decide _); [by right | by left]. Qed.

(** ** The loop of minimax, on grid contents *)

Section search_loop.
Context (rec : list cell → outcome (Z * option nat)).
Context (grid : list cell) (player multiplier : Z).

(** When every iteration succeeds, with [value square] the weighted score
    of [square], the loop either never updates, or stops on the last
    square of greatest value. *)
Lemma search_loop_spec (value : nat → Z) squares max_score best_move :
  (∀ sq, sq ∈ squares →
     ∃ g' r, mark grid sq player = Ret g' ∧ rec g' = Ret r ∧
             multiplier * r.1 = value sq) →
  (search_loop rec grid player multiplier squares max_score best_move =
     Ret (max_score, best_move) ∧
   ∀ sq, sq ∈ squares → value sq < max_score) ∨
  (∃ l1 k l2, squares = l1 ++ k :: l2 ∧
     search_loop rec grid player multiplier squares max_score best_move =
     Ret (value k, Some k) ∧
     max_score ≤ value k ∧
     (∀ sq, sq ∈ l1 → value sq ≤ value k) ∧
     (∀ sq, sq ∈ l2 → value sq < value k)).
Proof.
  revert max_score best_move.
  induction squares as [|square rest IH]; intros max_score best_move Hbody.
  { left. split; [done|]. by intros sq ?%elem_of_nil. }
  destruct (Hbody square) as (g' & r & Hmark & Hrec & Hval); [left|].
  assert (∀ sq, sq ∈ rest →
     ∃ g' r, mark grid sq player = Ret g' ∧ rec g' = Ret r ∧
             multiplier * r.1 = value sq) as Hrest.
  { intros sq Hsq. apply Hbody. by right. }
  simpl. rewrite Hmark. simpl. rewrite Hrec. simpl. rewrite Hval.
  destruct (decide (value square >= max_score)) as [Hge|Hlt].
  - destruct (IH (value square) (Some square) Hrest)
      as [[-> Hall]|(l1 & k & l2 & -> & -> & Hk & H1 & H2)].
    + right. exists [], square, rest. split; [done|]. split; [done|].
      split; [lia|]. split; [|done]. by intros sq ?%elem_of_nil.
    + right. exists (square :: l1), k, l2. split; [done|]. split; [done|].
      split; [lia|]. split; [|done].
      intros sq [->|Hsq]%elem_of_cons; [lia | by apply H1].
  - destruct (IH max_score best_move Hrest)
      as [[-> Hall]|(l1 & k & l2 & -> & -> & Hk & H1 & H2)].
    + left. split; [done|].
      intros sq [->|Hsq]%elem_of_cons; [lia | by apply Hall].
    + right. exists (square :: l1), k, l2. split; [done|]. split; [done|].
      split; [lia|]. split; [|done].
      intros sq [->|Hsq]%elem_of_cons; [lia | by apply H1].
Qed.
End search_loop.

(** ** minimax on grid contents *)

Lemma valid_grid_insert g k p :
  valid_grid g → valid_player p → valid_grid (<[k := Some p]> g).
Proof.
  intros [Hlen Hall] Hp. split; [by rewrite length_insert|].
  apply Forall_insert; [done|]. right. destruct Hp as [->| ->]; auto.
Qed.

(** On a real position minimax returns; a terminal position gives no move,
    and otherwise the move is the highest empty square among those of
    greatest value. *)
Lemma minimax_val_spec fuel : ∀ g p,
  valid_grid g → valid_player p → (n_empty g < fuel)%nat →
  ∃ s m, minimax_val fuel g p = Ret (s, m) ∧ -1 ≤ s ≤ 1 ∧
    ((terminal g ∧ m = None) ∨
     (¬ terminal g ∧ ∃ k vk, m = Some k ∧ g !! k = Some None ∧
        child_value (pred fuel) g p k = Ret vk ∧
        (∃ mult, subscript SCORES p = Ret mult ∧ s = mult * vk) ∧
        ∀ sq, g !! sq = Some None →
          ∃ v, child_value (pred fuel) g p sq = Ret v ∧
               -1 ≤ v ≤ vk ∧ (v = vk → (sq ≤ k)%nat))).
Proof.
  induction fuel as [|fuel IH]; intros g p Hg Hp Hfuel; [lia|].
  destruct (SCORES_player p Hp) as (mult & Hmult & Hsign).
  simpl. rewrite Hmult. simpl.
  destruct (winner_of_terminal g (proj1 Hg))
    as [(Ht & v & Hw & Hv)|(Hnt & Hw)]; rewrite Hw; simpl.
  { assert (∃ s, subscript SCORES v = Ret s ∧ -1 ≤ s ≤ 1) as (s & Hs & Hrange).
    { destruct (Hv (proj2 Hg)) as [->|[->| ->]];
        [exists 0 | exists 1 | exists (-1)];
        (split; [|lia]); [apply SCORES_DRAW | apply SCORES_X | apply SCORES_O]. }
    rewrite Hs. simpl. exists s, None. split; [done|]. split; [done|]. by left. }
  set (rec := λ g0, minimax_val fuel g0 (switch_player p)).
  set (value := λ sq,
    match child_value fuel g p sq with Ret v => v | _ => 0 end).
  assert (∀ sq, sq ∈ empty_squares g →
     ∃ r, mark g sq p = Ret (<[sq := Some p]> g) ∧
          rec (<[sq := Some p]> g) = Ret r ∧ -1 ≤ r.1 ≤ 1 ∧
          child_value fuel g p sq = Ret (mult * r.1)) as Hbody.
  { intros sq Hsq%elem_of_empty_squares.
    pose proof (mark_empty g sq p Hsq) as Hmark.
    destruct (IH (<[sq := Some p]> g) (switch_player p))
      as (s' & m' & Hr & Hrange & _).
    - by apply valid_grid_insert.
    - apply switch_player_valid.
    - pose proof (n_empty_insert g sq p Hsq). lia.
    - exists (s', m'). do 3 (split; [done|]).
      unfold child_value. rewrite Hmult. simpl. rewrite Hmark. simpl.
      fold rec. by rewrite Hr. }
  assert (∀ sq, sq ∈ empty_squares g →
     child_value fuel g p sq = Ret (value sq) ∧ -1 ≤ value sq ≤ 1) as Hvalue.
  { intros sq Hsq. destruct (Hbody sq Hsq) as (r & _ & _ & Hr & Hcv).
    unfold value. rewrite Hcv. split; [done|]. destruct Hsign as [->| ->]; lia. }
  destruct (search_loop_spec rec g p mult value (empty_squares g) (-1) None)
    as [[_ Hall]|(l1 & k & l2 & Hsq & Hloop & _ & H1 & H2)].
  { intros sq Hsq. destruct (Hbody sq Hsq) as (r & ? & ? & _ & Hcv).
    exists (<[sq := Some p]> g), r. do 2 (split; [done|]).
    unfold value. by rewrite Hcv. }
  { exfalso. destruct (empty_squares g) as [|k l] eqn:E.
    - apply Hnt. right. by apply empty_squares_nil.
    - assert (k ∈ k :: l) as Hk by left.
      pose proof (Hall k Hk). pose proof (Hvalue k Hk). lia. }
  rewrite Hloop. simpl.
  assert (k ∈ empty_squares g) as Hk.
  { rewrite Hsq. apply elem_of_app. right. left. }
  destruct (Hvalue k Hk) as [Hcvk Hrk].
  exists (mult * value k), (Some k). split; [done|].
  split; [destruct Hsign as [->| ->]; lia|]. right. split; [done|].
  exists k, (value k). split; [done|].
  split; [by apply elem_of_empty_squares|]. split; [done|].
  split; [by exists mult|].
  intros sq Hin%elem_of_empty_squares.
  destruct (Hvalue sq Hin) as [Hcv Hr]. exists (value sq). split; [done|].
  pose proof (empty_squares_sorted g) as Hsorted. rewrite Hsq in Hin, Hsorted.
  apply elem_of_app in Hin as [Hin|Hin].
  - split; [specialize (H1 sq Hin); lia|]. intros _.
    assert (sq < k)%nat; [|lia].
    apply (StronglySorted_app_1_elem_of lt l1 (k :: l2)); [done..|left].
  - apply elem_of_cons in Hin as [->|Hin]; [lia|].
    specialize (H2 sq Hin). lia.
Qed.

(** ** Termination and the recursion budget *)

Lemma subscript_finished d k : finished (subscript d k).
Proof. unfold subscript. by destruct (d !! k). Qed.

Lemma combo_wins_finished g combo : finished (combo_wins g combo).
Proof.
  destruct combo as [[c0 c1] c2]. unfold combo_wins, index.
  destruct (g !! c0) as [[v|]|]; simpl; try done.
  destruct (g !! c1) as [b|]; simpl; try done.
  destruct (decide _); simpl; try done.
  destruct (g !! c2) as [c|]; simpl; try done.
  by destruct (decide _).
Qed.

Lemma scan_combos_finished g i combos : finished (scan_combos g i combos).
Proof.
  revert i. induction combos as [|combo combos IH]; intros i; simpl; [done|].
  pose proof (combo_wins_finished g combo) as Hc.
  destruct (combo_wins g combo) as [[v|]| | |]; simpl; auto.
Qed.

Lemma winner_of_finished g : finished (winner_of g).
Proof.
  unfold winner_of. pose proof (scan_combos_finished g 0 winning_combos) as Hs.
  destruct (scan_combos g 0 winning_combos) as [[[i v]|]| | |]; simpl; try done.
  by destruct (decide _).
Qed.

Lemma search_loop_finished rec g p mult squares max_score best_move :
  (∀ sq, sq ∈ squares → ∃ g', mark g sq p = Ret g' ∧ finished (rec g')) →
  finished (search_loop rec g p mult squares max_score best_move).
Proof.
  revert max_score best_move.
  induction squares as [|square rest IH]; intros max_score best_move Hbody;
    simpl; [done|].
  destruct (Hbody square) as (g' & -> & Hrec); [left|]. simpl.
  destruct (rec g') as [r| | |]; simpl; try done.
  destruct (decide _); apply IH; intros sq Hsq; apply Hbody; by right.
Qed.

(** With more fuel than empty squares the recursion never runs out. *)
Lemma minimax_val_finished fuel : ∀ g p,
  (n_empty g < fuel)%nat → finished (minimax_val fuel g p).
Proof.
  induction fuel as [|fuel IH]; intros g p Hfuel; [lia|]. simpl.
  pose proof (subscript_finished SCORES p) as Hm.
  destruct (subscript SCORES p) as [mult| | |]; simpl; try done.
  pose proof (winner_of_finished g) as Hw.
  destruct (winner_of g) as [[w|]| | |]; simpl; try done.
  { pose proof (subscript_finished SCORES w) as Hs.
    by destruct (subscript SCORES w). }
  pose proof (search_loop_finished
    (λ g0, minimax_val fuel g0 (switch_player p)) g p mult
    (empty_squares g) (-1) None) as Hloop.
  destruct (search_loop _ _ _ _ _ _ _) as [r| | |]; simpl; try done;
    apply Hloop; intros sq Hsq%elem_of_empty_squares;
    exists (<[sq := Some p]> g); (split; [by apply mark_empty|]);
    apply IH; pose proof (n_empty_insert g sq p Hsq); lia.
Qed.

Lemma search_loop_mono rec1 rec2 g p mult squares max_score best_move :
  (∀ g', finished (rec1 g') → rec2 g' = rec1 g') →
  finished (search_loop rec1 g p mult squares max_score best_move) →
  search_loop rec2 g p mult squares max_score best_move =
  search_loop rec1 g p mult squares max_score best_move.
Proof.
  intros Hrec. revert max_score best_move.
  induction squares as [|square rest IH]; intros max_score best_move;
    simpl; [done|].
  destruct (mark g square p) as [g'| | |]; simpl; try done.
  destruct (rec1 g') as [r| | |] eqn:E; simpl; try done.
  - rewrite Hrec by (by rewrite E). rewrite E. simpl.
    destruct (decide _); apply IH.
  - rewrite Hrec by (by rewrite E). by rewrite E.
Qed.

(** A result obtained with some fuel is the result with any larger fuel. *)
Lemma minimax_val_mono_S fuel : ∀ g p,
  finished (minimax_val fuel g p) →
  minimax_val (S fuel) g p = minimax_val fuel g p.
Proof.
  induction fuel as [|fuel IH]; intros g p Hfin; [done|].
  change (minimax_val (S (S fuel)) g p) with
    (multiplier ← subscript SCORES p;
     w ← winner_of g;
     match w with
     | Some winner => s ← subscript SCORES winner; Ret (s, None)
     | None =>
         r ← search_loop (λ g0, minimax_val (S fuel) g0 (switch_player p))
               g p multiplier (empty_squares g) (-1) None;
         Ret (multiplier * r.1, r.2)
     end).
  simpl in Hfin |- *.
  destruct (subscript SCORES p) as [mult| | |]; simpl in *; try done.
  destruct (winner_of g) as [[w|]| | |]; simpl in *; try done.
  rewrite (search_loop_mono (λ g0, minimax_val fuel g0 (switch_player p)));
    [done | intros g'; apply IH |].
  by destruct (search_loop _ _ _ _ _ _ _).
Qed.

Lemma minimax_val_mono fuel fuel' g p :
  (fuel ≤ fuel')%nat → finished (minimax_val fuel g p) →
  minimax_val fuel' g p = minimax_val fuel g p.
Proof.
  induction 1 as [|fuel' Hle IH]; intros Hfin; [done|].
  rewrite minimax_val_mono_S; [by apply IH|]. by rewrite IH.
Qed.

(** ** Running the methods of Board on a heap *)

Lemma bind_run {A B} (m : M A) (f : A → M B) h :
  (m ≫= f) h =
  match m h with
  | (Ret a, h') => f a h'
  | (Raise e, h') => (Raise e, h')
  | (OutOfFuel, h') => (OutOfFuel, h')
  | (BadRef, h') => (BadRef, h')
  end.
Proof. reflexivity. Qed.

Lemma deref_run l (h : heap) g : h !! l = Some g → deref l h = (Ret g, h).
Proof. intros Hl. unfold deref. by rewrite Hl. Qed.

Lemma alloc_fresh (h : heap) : h !! fresh (dom h) = None.
Proof. apply not_elem_of_dom, is_fresh. Qed.

Lemma alloc_subseteq (h : heap) g : h ⊆ <[fresh (dom h) := g]> h.
Proof. apply insert_subseteq, alloc_fresh. Qed.

Lemma list_copy_run l (h : heap) g :
  h !! l = Some g →
  list_copy l h = (Ret (fresh (dom h)), <[fresh (dom h) := g]> h).
Proof.
  intros Hl. unfold list_copy. by rewrite bind_run, (deref_run l h g Hl).
Qed.

Lemma get_empty_squares_run b (h : heap) g :
  h !! grid b = Some g → get_empty_squares b h = (Ret (empty_squares g), h).
Proof.
  intros Hb. unfold get_empty_squares.
  by rewrite bind_run, (deref_run _ h g Hb).
Qed.

Lemma clone_run b (h : heap) g :
  h !! grid b = Some g →
  clone b h = (Ret {| grid := fresh (dom h); winning_index := None |},
               <[fresh (dom h) := g]> h).
Proof.
  intros Hb. unfold clone. by rewrite bind_run, (list_copy_run _ h g Hb).
Qed.

Lemma make_move_run b sq p (h : heap) g :
  h !! grid b = Some g →
  make_move b sq p h =
  match mark g sq p with
  | Ret g' => (Ret (), <[grid b := g']> h)
  | Raise e => (Raise e, h)
  | OutOfFuel => (OutOfFuel, h)
  | BadRef => (BadRef, h)
  end.
Proof.
  intros Hb. unfold make_move, mark, index.
  rewrite bind_run, (deref_run _ h g Hb), bind_run. unfold lift.
  destruct (g !! sq) as [[v|]|]; simpl; try done.
  unfold mret, M_mret, M_ret. by rewrite insert_id.
Qed.

Lemma get_winner_run b (h : heap) g :
  h !! grid b = Some g →
  ∃ b', grid b' = grid b ∧
        get_winner b h = (w ← winner_of g; Ret (w, b'), h).
Proof.
  intros Hb. unfold get_winner, winner_of.
  rewrite bind_run, (deref_run _ h g Hb), bind_run. unfold lift.
  destruct (scan_combos g 0 winning_combos) as [[[i v]|]| | |]; simpl;
    try (by exists b).
  - by eexists {| grid := grid b |}.
  - destruct (decide _); [by eexists {| grid := grid b |} | by exists b].
Qed.

(** ** minimax on the heap computes minimax on the contents *)

Section refinement.
Context (rec_h : Board → M (Z * option nat)).
Context (rec_v : list cell → outcome (Z * option nat)).
Context (Hrec : ∀ b (h : heap) g, h !! grid b = Some g →
                  ∃ h', rec_h b h = (rec_v g, h') ∧ h ⊆ h').

Lemma minimax_loop_refines board g p mult squares :
  ∀ max_score best_move (h : heap),
    h !! grid board = Some g →
    ∃ h', minimax_loop rec_h board p mult squares max_score best_move h =
            (search_loop rec_v g p mult squares max_score best_move, h') ∧
          h ⊆ h'.
Proof.
  induction squares as [|sq rest IH]; intros max_score best_move h Hb; simpl.
  { by exists h. }
  rewrite bind_run, (clone_run _ h g Hb).
  set (l := fresh (dom h)).
  rewrite bind_run, (make_move_run _ sq p _ g) by apply lookup_insert_eq.
  destruct (mark g sq p) as [g'|e| |]; simpl;
    try (eexists; split; [done | apply alloc_subseteq]).
  rewrite insert_insert_eq, bind_run.
  destruct (Hrec {| grid := l; winning_index := None |} (<[l := g']> h) g')
    as (h3 & -> & Hsub); [apply lookup_insert_eq|].
  assert (h ⊆ h3) as Hh3.
  { etrans; [apply (alloc_subseteq h g') | done]. }
  destruct (rec_v g') as [r|e| |]; simpl; try (by exists h3).
  destruct (decide _);
    (edestruct IH as (h' & -> & Hh');
       [by eapply lookup_weaken | exists h'; split; [done | by etrans]]).
Qed.
End refinement.

Lemma minimax_refines fuel : ∀ board p (h : heap) g,
  h !! grid board = Some g →
  ∃ h', minimax fuel board p h = (minimax_val fuel g p, h') ∧ h ⊆ h'.
Proof.
  induction fuel as [|fuel IH]; intros board p h g Hb; simpl.
  { by exists h. }
  rewrite bind_run. unfold lift at 1.
  destruct (subscript SCORES p) as [mult|e| |]; simpl; try (by exists h).
  destruct (get_winner_run board h g Hb) as (b' & Hb' & Hw).
  rewrite bind_run, Hw.
  destruct (winner_of g) as [[w|]|e| |]; simpl; try (by exists h).
  { rewrite bind_run. unfold lift.
    destruct (subscript SCORES w) as [s|e| |]; simpl; by exists h. }
  rewrite bind_run, (get_empty_squares_run b' h g) by (by rewrite Hb').
  rewrite bind_run.
  destruct (minimax_loop_refines
    (λ b, minimax fuel b (switch_player p))
    (λ g0, minimax_val fuel g0 (switch_player p))
    (λ b h0 g0, IH b (switch_player p) h0 g0)
    b' g p mult (empty_squares g) (-1) None h) as (h' & -> & Hh');
    [by rewrite Hb'|].
  destruct (search_loop _ _ _ _ _ _ _) as [r|e| |]; simpl; by exists h'.
Qed.

(** ** The endpoint *)

Lemma GAME_MODES_easy : mode_of GAME_MODES "easy" = Ret "easy"%string.
Proof. reflexivity. Qed.

Lemma GAME_MODES_medium : mode_of GAME_MODES "medium" = Ret "medium"%string.
Proof. reflexivity. Qed.

Lemma GAME_MODES_values :
  values GAME_MODES = ["medium"; "easy"; "difficult"]%string.
Proof. reflexivity. Qed.

Lemma random_choice_elem rnd l :
  l ≠ [] → ∃ m, random_choice rnd l = Ret m ∧ m ∈ l.
Proof.
  intros Hl. unfold random_choice, index.
  assert (choice_draw rnd mod length l < length l)%nat as Hlt.
  { apply Nat.mod_upper_bound. by destruct l. }
  apply lookup_lt_is_Some_2 in Hlt as [m Hm]. rewrite Hm.
  exists m. split; [done|]. by eapply list_elem_of_lookup_2.
Qed.

(** On a board with no mark every index is an empty square. *)
Lemma empty_from_full i g :
  length (empty_from i g) = length g → ∀ k, (k < length g)%nat → g !! k = Some None.
Proof.
  revert i. induction g as [|c g IH]; intros i Hlen k Hk; simpl in *; [lia|].
  destruct c as [v|]; simpl in *.
  - pose proof (empty_from_length_le (S i) g). lia.
  - destruct k as [|k]; [done|]. apply (IH (S i)); lia.
Qed.

(** The last step of the endpoint: copy the caller's grid, mark the copy. *)
Lemma new_grid_run l m p (h : heap) g :
  h !! l = Some g → (m < length g)%nat →
  (new_grid ← list_copy l;
   _ ← setitem new_grid m (Some p);
   g' ← deref new_grid;
   mret (Success m g' p)) h =
  (Ret (Success m (<[m := Some p]> g) p),
   <[fresh (dom h) := <[m := Some p]> g]> h).
Proof.
  intros Hl Hm. rewrite bind_run, (list_copy_run l h g Hl), bind_run.
  unfold setitem. rewrite bind_run, (deref_run _ _ g) by apply lookup_insert_eq.
  rewrite bind_run. unfold lift, index.
  apply lookup_lt_is_Some_2 in Hm as [c ->]. unfold store.
  rewrite insert_insert_eq, bind_run.
  by rewrite (deref_run _ _ (<[m := Some p]> g)) by apply lookup_insert_eq.
Qed.

Lemma Board_init_run l (h : heap) :
  Board_init (Some l) h = (Ret {| grid := l; winning_index := None |}, h).
Proof. reflexivity. Qed.

Lemma is_empty_run b (h : heap) g :
  h !! grid b = Some g →
  is_empty b h = (Ret (bool_decide (n_empty g = DIMENSIONS ^ 2)%nat), h).
Proof.
  intros Hb. unfold is_empty.
  by rewrite bind_run, (get_empty_squares_run b h g Hb).
Qed.

(** What the search hands to the endpoint on a real position. *)
Lemma minimax_run fuel board p (h : heap) g :
  h !! grid board = Some g → valid_grid g → valid_player p →
  (n_empty g < fuel)%nat →
  ∃ s m h', minimax fuel board p h = (Ret (s, m), h') ∧ h ⊆ h' ∧
            minimax_val fuel g p = Ret (s, m).
Proof.
  intros Hb Hg Hp Hfuel.
  destruct (minimax_refines fuel board p h g Hb) as (h' & Hrun & Hsub).
  destruct (minimax_val_spec fuel g p Hg Hp Hfuel) as (s & m & Hval & _).
  exists s, m, h'. by rewrite Hrun, Hval.
Qed.

Lemma try_except_ret {A} (m : M A) handler (h : heap)
    (P : A → heap → Prop) :
  (∃ a h', m h = (Ret a, h') ∧ P a h') →
  ∃ a h', try_except m handler h = (Ret a, h') ∧ P a h'.
Proof.
  intros (a & h' & Hm & HP). exists a, h'. unfold try_except. by rewrite Hm.
Qed.

(** The block under [# Make the move], for a move onto an empty square. *)
Lemma make_the_move_run l m p (h : heap) g :
  h !! l = Some g → g !! m = Some None →
  (if decide (m ∈ empty_squares g) then
     new_grid ← list_copy l;
     _ ← setitem new_grid m (Some p);
     g' ← deref new_grid;
     mret (Success m g' p)
   else mret (Failure 500 "Unable to determine valid move")) h =
  (Ret (Success m (<[m := Some p]> g) p),
   <[fresh (dom h) := <[m := Some p]> g]> h).
Proof.
  intros Hl Hm.
  destruct (decide (m ∈ empty_squares g)) as [_|Hnot];
    [|by apply elem_of_empty_squares in Hm].
  apply new_grid_run; [done | by eapply lookup_lt_Some].
Qed.

(** What a request that passes validation gets: a move onto an empty
    square, or the failure of a search that found a finished line. *)
Lemma ai_move_valid_run fuel rnd l p md (h : heap) g :
  h !! l = Some g → valid_grid g → has_empty g → valid_player p →
  default "difficult"%string md ∈ values GAME_MODES → (n_empty g < fuel)%nat →
  ∃ resp h',
    ai_move fuel rnd
      (Some {| p_grid := Some l; p_ai_player := Some p; p_mode := md |}) h =
      (Ret resp, h') ∧ h ⊆ h' ∧
    ((∃ m, g !! m = Some None ∧ resp = Success m (<[m := Some p]> g) p) ∨
     (resp = Failure 500 "Unable to determine valid move" ∧ has_win g ∧
      default "difficult"%string md ≠ "easy"%string)).
Proof.
  intros Hl Hg He Hp Hmode Hfuel.
  set (mode := default "difficult"%string md) in *.
  set (h1 := <[fresh (dom h) := g]> h).
  set (board := {| grid := fresh (dom h); winning_index := None |}).
  assert (h ⊆ h1) as Hh1 by apply alloc_subseteq.
  assert (h1 !! grid board = Some g) as Hb by apply lookup_insert_eq.
  assert (empty_squares g ≠ []) as Hnil by (by intros ?%empty_squares_nil).
  (* the answer once a square has been chosen *)
  assert (∀ m (h2 : heap), h1 ⊆ h2 → g !! m = Some None →
    ∃ resp h',
      (if decide (m ∈ empty_squares g) then
         new_grid ← list_copy l;
         _ ← setitem new_grid m (Some p);
         g' ← deref new_grid;
         mret (Success m g' p)
       else mret (Failure 500 "Unable to determine valid move")) h2 =
      (Ret resp, h') ∧ h ⊆ h' ∧
      ((∃ m, g !! m = Some None ∧ resp = Success m (<[m := Some p]> g) p) ∨
       (resp = Failure 500 "Unable to determine valid move" ∧ has_win g ∧
        mode ≠ "easy"%string))) as Hmove.
  { intros m h2 Hh2 Hm. eexists _, _. split.
    - apply make_the_move_run; [|done]. by do 2 (eapply lookup_weaken; [|done]).
    - split; [|left; by exists m].
      do 2 (etrans; [done|]). apply alloc_subseteq. }
  destruct (random_choice_elem rnd _ Hnil)
    as (mc & Hchoice & Hmc%elem_of_empty_squares).
  (* the answer after a search *)
  assert (mode ≠ "easy"%string →
    ∃ resp h',
      ((r ← minimax fuel board p; mret r.2) ≫= λ move_index,
         match move_index with
         | Some m =>
             if decide (m ∈ empty_squares g) then
               new_grid ← list_copy l;
               _ ← setitem new_grid m (Some p);
               g' ← deref new_grid;
               mret (Success m g' p)
             else mret (Failure 500 "Unable to determine valid move")
         | None => mret (Failure 500 "Unable to determine valid move")
         end) h1 = (Ret resp, h') ∧ h ⊆ h' ∧
      ((∃ m, g !! m = Some None ∧ resp = Success m (<[m := Some p]> g) p) ∨
       (resp = Failure 500 "Unable to determine valid move" ∧ has_win g ∧
        mode ≠ "easy"%string))) as Hsearch.
  { intros Hneasy.
    destruct (minimax_run fuel board p h1 g Hb Hg Hp Hfuel)
      as (s & mv & h2 & Hrun & Hh2 & Hval).
    rewrite bind_run, bind_run, Hrun.
    destruct (minimax_val_spec fuel g p Hg Hp Hfuel)
      as (s' & m' & Hval' & _ & [[Ht ->]|(_ & k & vk & -> & Hk & _)]);
      rewrite Hval in Hval'; simplify_eq.
    - eexists _, h2. split; [done|]. split; [by etrans|]. right.
      by destruct Ht.
    - by apply Hmove. }
  unfold ai_move. apply try_except_ret.
  cbn [p_grid p_ai_player p_mode]. fold mode.
  rewrite bind_run, (deref_run l h g Hl).
  destruct (decide (length g ≠ 9%nat)) as [Hlen|_]; [by destruct Hlen, Hg|].
  destruct (decide (p ∉ [PLAYER_X; PLAYER_O])) as [Hnp|_].
  { destruct Hnp. destruct Hp as [->| ->]; [left | right; left]. }
  destruct (decide (mode ∉ values GAME_MODES)) as [Hn|_]; [done|].
  rewrite bind_run, (list_copy_run l h g Hl). fold h1.
  rewrite bind_run, Board_init_run. fold board.
  rewrite bind_run, (get_empty_squares_run board h1 g Hb).
  destruct (decide (empty_squares g = [])) as [|_]; [done|].
  rewrite bind_run. unfold lift at 1. rewrite GAME_MODES_easy.
  destruct (decide (mode = "easy"%string)) as [Heasy|Hneasy].
  { rewrite bind_run, bind_run. unfold lift at 1. rewrite Hchoice.
    by apply Hmove. }
  specialize (Hsearch Hneasy).
  rewrite bind_run, bind_run. unfold lift at 1. rewrite GAME_MODES_medium.
  destruct (decide (mode = "medium"%string)) as [Hmed|Hnmed].
  - rewrite bind_run, (is_empty_run board h1 g Hb).
    destruct (_ || _); [|exact Hsearch].
    rewrite bind_run. unfold lift at 1. rewrite Hchoice. by apply Hmove.
  - rewrite bind_run, (is_empty_run board h1 g Hb).
    destruct (bool_decide _) eqn:Hfull; [|exact Hsearch].
    apply bool_decide_eq_true in Hfull. apply Hmove; [done|].
    apply (empty_from_full 0); [by rewrite (proj1 Hg)|].
    rewrite (proj1 Hg). by apply Nat.mod_upper_bound.
Qed.

(** * The claims *)

(** ** Board *)

Lemma make_moves_frame c moves l : ∀ h : heap,
  is_Some (h !! grid c) → grid c ≠ l →
  (make_moves c moves h).2 !! l = h !! l.
Proof.
  induction moves as [|[sq p] moves IH]; intros h [gc Hc] Hne; simpl; [done|].
  rewrite bind_run, (make_move_run c sq p h gc Hc).
  destruct (mark gc sq p) as [g'|e| |]; simpl; try done.
  rewrite IH; [by apply lookup_insert_ne | by rewrite lookup_insert_eq | done].
Qed.

(** C7: [make_move] writes [player] into an empty square and leaves the
    grid as it is when the square is occupied; in both cases every other
    square of the grid, its length, and every other list of the heap stay
    as they were. *)
Theorem make_move_frame (h : heap) self g square player :
  h !! grid self = Some g → (square < length g)%nat →
  ∃ g', make_move self square player h = (Ret (), <[grid self := g']> h) ∧
        length g' = length g ∧
        (g !! square = Some None → g' !! square = Some (Some player)) ∧
        (g !! square ≠ Some None → g' = g) ∧
        (∀ j, j ≠ square → g' !! j = g !! j).
Proof.
  intros Hself Hsq. rewrite (make_move_run self square player h g Hself).
  unfold mark, index.
  destruct (lookup_lt_is_Some_2 g square Hsq) as [[v|] Hc]; rewrite Hc; simpl.
  - exists g. by repeat split.
  - exists (<[square := Some player]> g). split; [done|].
    split; [by rewrite length_insert|].
    split; [intros _; by apply list_lookup_insert_eq|].
    split; [done|]. intros j Hj. by apply list_lookup_insert_ne.
Qed.

Lemma make_move_frame_witness :
  ∃ g', make_move board_1 2 PLAYER_O (heap_of open_grid) =
          (Ret (), <[grid board_1 := g']> (heap_of open_grid)) ∧
        length g' = length open_grid ∧
        (open_grid !! 2%nat = Some None → g' !! 2%nat = Some (Some PLAYER_O)) ∧
        (open_grid !! 2%nat ≠ Some None → g' = open_grid) ∧
        (∀ j, j ≠ 2%nat → g' !! j = open_grid !! j).
Proof.
  apply (make_move_frame (heap_of open_grid) board_1 open_grid 2 PLAYER_O).
  - reflexivity.
  - simpl. lia.
Defined.

(** C8: [clone] gives a board on a new list with the same cells and no
    winning line recorded; whatever moves are then made on the clone, the
    cells of the original stay as they were. *)
Theorem clone_independent (h : heap) self g :
  h !! grid self = Some g →
  ∃ c h1, clone self h = (Ret c, h1) ∧
          h1 !! grid c = Some g ∧
          winning_index c = None ∧
          grid c ≠ grid self ∧
          h1 !! grid self = Some g ∧
          ∀ moves, (make_moves c moves h1).2 !! grid self = Some g.
Proof.
  intros Hself. rewrite (clone_run self h g Hself).
  eexists _, _. split; [done|]. simpl.
  assert (fresh (dom h) ≠ grid self) as Hne.
  { intros Heq. pose proof (alloc_fresh h) as Hf. congruence. }
  assert (<[fresh (dom h) := g]> h !! grid self = Some g) as Hkeep.
  { by rewrite lookup_insert_ne. }
  split; [by rewrite lookup_insert_eq|]. do 3 (split; [done|]).
  intros moves. rewrite make_moves_frame; [done| |done].
  simpl. by rewrite lookup_insert_eq.
Qed.

Lemma clone_independent_witness :
  ∃ c h1, clone board_1 (heap_of open_grid) = (Ret c, h1) ∧
          h1 !! grid c = Some open_grid ∧
          winning_index c = None ∧
          grid c ≠ grid board_1 ∧
          h1 !! grid board_1 = Some open_grid ∧
          ∀ moves, (make_moves c moves h1).2 !! grid board_1 = Some open_grid.
Proof.
  apply (clone_independent (heap_of open_grid) board_1 open_grid).
  reflexivity.
Defined.

(** C4: on a 9-cell grid [get_winner] returns the mark of the first line of
    the table whose three cells hold one mark, and records the number of
    that line; with no such line and no empty cell it returns [DRAW] and
    records no line; otherwise it returns [None] (the game goes on) and
    leaves the record as it was.  The heap is not changed. *)
Theorem get_winner_outcome (h : heap) self g :
  h !! grid self = Some g → length g = 9%nat →
  ∃ w self', get_winner self h = (Ret (w, self'), h) ∧
    grid self' = grid self ∧
    ((∃ i v, first_win g i v ∧ w = Some v ∧ winning_index self' = Some i) ∨
     (¬ has_win g ∧ ¬ has_empty g ∧
      w = Some DRAW ∧ winning_index self' = None) ∨
     (¬ has_win g ∧ has_empty g ∧
      w = None ∧ winning_index self' = winning_index self)).
Proof.
  intros Hself Hlen. unfold get_winner.
  rewrite bind_run, (deref_run _ h g Hself), bind_run. unfold lift.
  destruct (scan_winning_combos g Hlen) as [(i & v & -> & Hw)|[-> Hno]].
  - eexists _, _. split; [done|]. split; [done|]. left. by exists i, v.
  - destruct (decide (length (empty_squares g) = 0%nat)) as [E|E].
    + eexists _, _. split; [done|]. split; [done|]. right. left.
      split; [done|]. split; [|done].
      apply empty_squares_nil. by apply nil_length_inv.
    + eexists _, _. split; [done|]. split; [done|]. right. right.
      split; [done|]. split; [|done].
      destruct (empty_squares g) as [|k l] eqn:Hk; [done|].
      exists k. apply elem_of_empty_squares. rewrite Hk. left.
Qed.

Lemma get_winner_outcome_witness :
  ∃ w self', get_winner board_1 (heap_of won_grid) =
               (Ret (w, self'), heap_of won_grid) ∧
    grid self' = grid board_1 ∧
    ((∃ i v, first_win won_grid i v ∧ w = Some v ∧
             winning_index self' = Some i) ∨
     (¬ has_win won_grid ∧ ¬ has_empty won_grid ∧
      w = Some DRAW ∧ winning_index self' = None) ∨
     (¬ has_win won_grid ∧ has_empty won_grid ∧
      w = None ∧ winning_index self' = winning_index board_1)).
Proof.
  apply (get_winner_outcome (heap_of won_grid) board_1 won_grid);
    reflexivity.
Defined.

(** ** minimax *)

Ltac valid_grid_tac :=
  split;
  [ reflexivity
  | repeat (apply Forall_cons; split; [unfold valid_cell, cX, cO; auto|]);
    constructor ].

Lemma not_terminal_by_winner g :
  length g = 9%nat → winner_of g = Ret None → ¬ terminal g.
Proof.
  intros Hlen Hw. destruct (winner_of_terminal g Hlen)
    as [(_ & v & Hv & _)|[Hnt _]]; [congruence | done].
Qed.

(** C1, as the code has it: on a position that is not terminal minimax
    returns the empty square of greatest value seen from the player to
    move, and among several such squares the last one, the one of highest
    index (the test [score >= max_score] lets a later equal score replace
    the earlier one). *)
Theorem minimax_tie_break (h : heap) board g player fuel :
  h !! grid board = Some g → valid_grid g → valid_player player →
  ¬ terminal g → (n_empty g < fuel)%nat →
  ∃ s k h', minimax fuel board player h = (Ret (s, Some k), h') ∧
            last_best (pred fuel) g player k.
Proof.
  intros Hb Hg Hp Hnt Hfuel.
  destruct (minimax_run fuel board player h g Hb Hg Hp Hfuel)
    as (s & m & h' & Hrun & _ & Hval).
  destruct (minimax_val_spec fuel g player Hg Hp Hfuel)
    as (s' & m' & Hval' & _ & [[Ht _]|(_ & k & vk & -> & Hk & Hvk & _ & Hall)]);
    [done|].
  rewrite Hval in Hval'. simplify_eq.
  exists s', k, h'. split; [done|]. split; [done|]. exists vk. split; [done|].
  intros sq Hsq. destruct (Hall sq Hsq) as (v & Hv & Hle & Htie).
  exists v. split; [done|]. split; [lia | done].
Qed.

Lemma minimax_tie_break_witness :
  ∃ s k h', minimax 3 board_1 PLAYER_O (heap_of tie_grid) =
              (Ret (s, Some k), h') ∧
            last_best 2 tie_grid PLAYER_O k.
Proof.
  apply (minimax_tie_break (heap_of tie_grid) board_1 tie_grid PLAYER_O 3).
  - reflexivity.
  - valid_grid_tac.
  - by right.
  - by apply not_terminal_by_winner.
  - vm_compute. lia.
Defined.

(** C1 as stated fails: on [tie_grid] with O to move the empty squares 7
    and 8 both have the greatest value 0, square 7 is the first of them,
    and minimax returns square 8, which is not the first. *)
Lemma minimax_tie_not_first :
  valid_grid tie_grid ∧ ¬ terminal tie_grid ∧
  child_value 2 tie_grid PLAYER_O 7 = Ret 0 ∧
  child_value 2 tie_grid PLAYER_O 8 = Ret 0 ∧
  first_best 2 tie_grid PLAYER_O 7 ∧
  (minimax 3 board_1 PLAYER_O (heap_of tie_grid)).1 = Ret (0, Some 8%nat) ∧
  ¬ first_best 2 tie_grid PLAYER_O 8.
Proof.
  split; [valid_grid_tac|]. split; [by apply not_terminal_by_winner|].
  do 2 (split; [reflexivity|]). split; [|split; [reflexivity|]].
  - split; [reflexivity|]. exists 0. split; [reflexivity|].
    intros sq Hsq%elem_of_empty_squares.
    change (empty_squares tie_grid) with [7; 8]%nat in Hsq.
    apply elem_of_cons in Hsq as [->|Hsq];
      [|apply elem_of_cons in Hsq as [->|Hsq%elem_of_nil]; [|done]];
      exists 0; (split; [reflexivity|]); split; lia.
  - intros (_ & vk & Hvk & Hall).
    destruct (Hall 7%nat) as (v & Hv & _ & Htie); [reflexivity|].
    assert (vk = 0) as -> by (by injection Hvk).
    assert (v = 0) as -> by (by injection Hv).
    specialize (Htie eq_refl). lia.
Qed.

Lemma minimax_val_empty_X :
  minimax_val 10 empty_grid PLAYER_X = Ret (0, Some 8%nat).
Proof. vm_compute. reflexivity. Qed.

Lemma minimax_val_empty_O :
  minimax_val 10 empty_grid PLAYER_O = Ret (0, Some 8%nat).
Proof. vm_compute. reflexivity. Qed.

(** C2: on the board of nine empty cells minimax returns score 0, whether X
    or O is to move. *)
Theorem minimax_empty_board (h : heap) board player fuel :
  h !! grid board = Some empty_grid → valid_player player → (9 < fuel)%nat →
  ∃ m h', minimax fuel board player h = (Ret (0, m), h').
Proof.
  intros Hb Hp Hfuel.
  destruct (minimax_refines fuel board player h empty_grid Hb)
    as (h' & Hrun & _).
  exists (Some 8%nat), h'. rewrite Hrun. f_equal.
  destruct Hp as [->| ->].
  - rewrite (minimax_val_mono 10); [apply minimax_val_empty_X | lia|].
    by rewrite minimax_val_empty_X.
  - rewrite (minimax_val_mono 10); [apply minimax_val_empty_O | lia|].
    by rewrite minimax_val_empty_O.
Qed.

Lemma minimax_empty_board_witness :
  ∃ m h', minimax 10 board_1 PLAYER_X (heap_of empty_grid) = (Ret (0, m), h').
Proof.
  apply (minimax_empty_board (heap_of empty_grid) board_1 PLAYER_X 10).
  - reflexivity.
  - by left.
  - lia.
Defined.

(** C3: on a 9-cell board with X to move or O to move, minimax returns; the
    move it returns, if any, is an empty square, and it returns no move
    exactly when the board is terminal (a line is completed or no cell is
    empty). *)
Theorem minimax_move_legal (h : heap) board g player fuel :
  h !! grid board = Some g → valid_grid g → valid_player player →
  (n_empty g < fuel)%nat →
  ∃ s m h', minimax fuel board player h = (Ret (s, m), h') ∧
            (∀ k, m = Some k → g !! k = Some None) ∧
            (m = None ↔ terminal g).
Proof.
  intros Hb Hg Hp Hfuel.
  destruct (minimax_run fuel board player h g Hb Hg Hp Hfuel)
    as (s & m & h' & Hrun & _ & Hval).
  exists s, m, h'. split; [done|].
  destruct (minimax_val_spec fuel g player Hg Hp Hfuel)
    as (s' & m' & Hval' & _ & [[Ht ->]|(Hnt & k & vk & -> & Hk & _)]);
    rewrite Hval in Hval'; simplify_eq.
  - split; [done|]. by split.
  - split; [by intros ? [= <-]|]. by split.
Qed.

Lemma minimax_move_legal_witness :
  ∃ s m h', minimax 7 board_1 PLAYER_O (heap_of open_grid) =
              (Ret (s, m), h') ∧
            (∀ k, m = Some k → open_grid !! k = Some None) ∧
            (m = None ↔ terminal open_grid).
Proof.
  apply (minimax_move_legal (heap_of open_grid) board_1 open_grid PLAYER_O 7).
  - reflexivity.
  - valid_grid_tac.
  - by right.
  - vm_compute. lia.
Defined.

(** C5: minimax terminates.  A call with [fuel] may nest at most [fuel]
    calls, itself included; one more than the number of empty cells, which
    is at most 9 on a 9-cell board, is always enough, for every cell
    content and every player, and a larger budget gives the same result.
    Each recursive call is made on a copy that has one empty cell less. *)
Theorem minimax_terminates (h : heap) board g player :
  h !! grid board = Some g → length g = 9%nat →
  (n_empty g ≤ 9)%nat ∧
  finished (minimax (S (n_empty g)) board player h).1 ∧
  (∀ fuel, (n_empty g < fuel)%nat →
     (minimax fuel board player h).1 =
     (minimax (S (n_empty g)) board player h).1) ∧
  ∀ square, square ∈ empty_squares g →
    ∃ board_copy h1 g',
      (c ← clone board; _ ← make_move c square player; mret c) h =
        (Ret board_copy, h1) ∧
      h1 !! grid board_copy = Some g' ∧
      (n_empty g' < n_empty g)%nat.
Proof.
  intros Hb Hlen. split; [rewrite <- Hlen; apply n_empty_le|].
  destruct (minimax_refines (S (n_empty g)) board player h g Hb)
    as (h' & Hrun & _).
  assert (finished (minimax_val (S (n_empty g)) g player)) as Hfin.
  { apply minimax_val_finished. lia. }
  split; [by rewrite Hrun|]. split.
  - intros fuel Hfuel.
    destruct (minimax_refines fuel board player h g Hb) as (h'' & -> & _).
    rewrite Hrun. cbn [fst]. apply minimax_val_mono; [lia | done].
  - intros sq Hsq%elem_of_empty_squares.
    rewrite bind_run, (clone_run board h g Hb).
    rewrite bind_run, (make_move_run _ sq player _ g)
      by apply lookup_insert_eq.
    rewrite (mark_empty g sq player Hsq). simpl.
    eexists _, _, (<[sq := Some player]> g). split; [done|].
    split; [by rewrite lookup_insert_eq|].
    pose proof (n_empty_insert g sq player Hsq). lia.
Qed.

Lemma minimax_terminates_witness :
  (n_empty open_grid ≤ 9)%nat ∧
  finished (minimax (S (n_empty open_grid)) board_1 PLAYER_X
              (heap_of open_grid)).1 ∧
  (∀ fuel, (n_empty open_grid < fuel)%nat →
     (minimax fuel board_1 PLAYER_X (heap_of open_grid)).1 =
     (minimax (S (n_empty open_grid)) board_1 PLAYER_X (heap_of open_grid)).1) ∧
  ∀ square, square ∈ empty_squares open_grid →
    ∃ board_copy h1 g',
      (c ← clone board_1; _ ← make_move c square PLAYER_X; mret c)
        (heap_of open_grid) = (Ret board_copy, h1) ∧
      h1 !! grid board_copy = Some g' ∧
      (n_empty g' < n_empty open_grid)%nat.
Proof.
  apply (minimax_terminates (heap_of open_grid) board_1 open_grid PLAYER_X);
    reflexivity.
Defined.

(** ** The endpoint *)

(** C6: on a request whose other fields are valid, a grid whose length is
    not 9 is answered with [InvalidDimension] (here for every player and
    mode the request carries), and a 9-cell grid without an empty cell is
    answered with [NoLegalMove].  Both answers are given for every [fuel],
    also for 0, with which any call of minimax would give [OutOfFuel]:
    the search has not begun. *)
Theorem ai_move_validation (h : heap) l g player mode fuel rnd :
  h !! l = Some g →
  (length g ≠ 9%nat →
   ai_move fuel rnd (request l player mode) h = (Ret InvalidDimension, h)) ∧
  (length g = 9%nat → ¬ has_empty g → valid_player player →
   default "difficult"%string mode ∈ values GAME_MODES →
   ∃ h', ai_move fuel rnd (request l player mode) h = (Ret NoLegalMove, h') ∧
         h ⊆ h').
Proof.
  intros Hl. split.
  - intros Hlen. unfold ai_move, request, try_except.
    cbn [p_grid p_ai_player p_mode].
    rewrite bind_run, (deref_run l h g Hl).
    by destruct (decide (length g ≠ 9%nat)).
  - intros Hlen Hfull Hp Hmode. unfold ai_move, request, try_except.
    cbn [p_grid p_ai_player p_mode].
    rewrite bind_run, (deref_run l h g Hl).
    destruct (decide (length g ≠ 9%nat)) as [|_]; [done|].
    destruct (decide (player ∉ [PLAYER_X; PLAYER_O])) as [Hnp|_].
    { destruct Hnp. destruct Hp as [->| ->]; [left | right; left]. }
    destruct (decide (_ ∉ values GAME_MODES)) as [|_]; [done|].
    rewrite bind_run, (list_copy_run l h g Hl).
    rewrite bind_run, Board_init_run.
    rewrite bind_run, (get_empty_squares_run _ _ g)
      by apply lookup_insert_eq.
    apply empty_squares_nil in Hfull. rewrite Hfull.
    eexists. split; [done|]. apply alloc_subseteq.
Qed.

Lemma ai_move_validation_witness :
  ai_move 0 draws (request 1 PLAYER_X None) (heap_of [None; None]) =
    (Ret InvalidDimension, heap_of [None; None]) ∧
  ∃ h', ai_move 0 draws (request 1 PLAYER_X None) (heap_of full_grid) =
          (Ret NoLegalMove, h') ∧
        heap_of full_grid ⊆ h'.
Proof.
  split.
  - apply (ai_move_validation (heap_of [None; None]) 1 [None; None]
             PLAYER_X None 0 draws); [reflexivity | simpl; lia].
  - apply (ai_move_validation (heap_of full_grid) 1 full_grid
             PLAYER_X None 0 draws).
    + reflexivity.
    + reflexivity.
    + by apply empty_squares_nil.
    + by left.
    + simpl. rewrite GAME_MODES_values. repeat constructor.
Defined.

(** The player is checked before the empty squares: a full 9-cell grid
    sent with the player 3 is answered with [InvalidPlayer]. *)
Lemma ai_move_full_grid_invalid_player :
  length full_grid = 9%nat ∧ ¬ has_empty full_grid ∧
  (ai_move 10 draws (request 1 3 (Some "difficult"%string))
     (heap_of full_grid)).1 = Ret InvalidPlayer ∧
  InvalidPlayer ≠ NoLegalMove.
Proof.
  split; [reflexivity|]. split; [by apply empty_squares_nil|].
  split; [reflexivity | discriminate].
Qed.

Lemma not_terminal g : ¬ has_win g → has_empty g → ¬ terminal g.
Proof. intros Hw He [?|?]; done. Qed.

(** C9, as the code has it: on a valid request (a 9-cell grid with an empty
    cell, player X or O, a known mode) the endpoint answers, and leaves the
    caller's grid, like every list that existed before, as it was.  A grid
    it returns differs from the caller's at exactly one index, the
    returned move, which was empty and now holds the player's mark.  It
    does return a grid when the mode is easy or no line of the grid is
    completed. *)
Theorem ai_move_frame (h : heap) l g player mode fuel rnd :
  h !! l = Some g → valid_grid g → has_empty g → valid_player player →
  default "difficult"%string mode ∈ values GAME_MODES →
  (n_empty g < fuel)%nat →
  ∃ resp h', ai_move fuel rnd (request l player mode) h = (Ret resp, h') ∧
    h' !! l = Some g ∧ h ⊆ h' ∧
    (∀ m g' a, resp = Success m g' a →
       a = player ∧ g !! m = Some None ∧ g' !! m = Some (Some player) ∧
       length g' = length g ∧ ∀ j, j ≠ m → g' !! j = g !! j) ∧
    (default "difficult"%string mode = "easy"%string ∨ ¬ has_win g →
     ∃ m g', resp = Success m g' player).
Proof.
  intros Hl Hg He Hp Hmode Hfuel.
  destruct (ai_move_valid_run fuel rnd l player mode h g Hl Hg He Hp Hmode Hfuel)
    as (resp & h' & Hrun & Hsub & Hresp).
  exists resp, h'. split; [done|].
  split; [by eapply lookup_weaken|]. split; [done|].
  destruct Hresp as [(m & Hm & ->)|(-> & Hwin & Hmd)].
  - split; [|by eauto].
    intros m' g' a [= <- <- <-]. do 2 (split; [done|]).
    split; [apply list_lookup_insert_eq; by eapply lookup_lt_Some|].
    split; [by rewrite length_insert|].
    intros j Hj. by apply list_lookup_insert_ne.
  - split; [done|]. by intros [?|?].
Qed.

Lemma ai_move_frame_witness :
  ∃ resp h',
    ai_move 7 draws (request 1 PLAYER_O (Some "difficult"%string))
      (heap_of open_grid) = (Ret resp, h') ∧
    h' !! 1%positive = Some open_grid ∧ heap_of open_grid ⊆ h' ∧
    (∀ m g' a, resp = Success m g' a →
       a = PLAYER_O ∧ open_grid !! m = Some None ∧
       g' !! m = Some (Some PLAYER_O) ∧
       length g' = length open_grid ∧ ∀ j, j ≠ m → g' !! j = open_grid !! j) ∧
    (default "difficult"%string (Some "difficult"%string) = "easy"%string ∨
     ¬ has_win open_grid →
     ∃ m g', resp = Success m g' PLAYER_O).
Proof.
  apply (ai_move_frame (heap_of open_grid) 1 open_grid PLAYER_O
           (Some "difficult"%string) 7 draws).
  - reflexivity.
  - valid_grid_tac.
  - by exists 2%nat.
  - by right.
  - simpl. rewrite GAME_MODES_values. repeat constructor.
  - vm_compute. lia.
Defined.

(** C9 as stated fails: [won_grid] has empty cells, O is a valid player and
    the mode defaults to difficult, yet no grid comes back: the search sees
    the completed row, returns no move, and the endpoint answers with its
    internal failure. *)
Lemma ai_move_finished_game_no_grid :
  valid_grid won_grid ∧ has_empty won_grid ∧ valid_player PLAYER_O ∧
  default "difficult"%string None ∈ values GAME_MODES ∧
  (ai_move 10 draws (request 1 PLAYER_O None) (heap_of won_grid)).1 =
    Ret InternalFailure ∧
  ∀ m g' a, InternalFailure ≠ Success m g' a.
Proof.
  split; [valid_grid_tac|]. split; [by exists 5%nat|]. split; [by right|].
  split; [|split; [reflexivity | discriminate]].
  simpl. rewrite GAME_MODES_values. repeat constructor.
Qed.

(** C10, as the code has it: on a board with an empty cell and no completed
    line every move has a value of at least -1, the initial best value, so
    the non-strict test accepts the first of them and minimax returns a
    move.  Hence the internal-failure answer of the endpoint is never
    given in easy mode, and in the other modes it is never given for a
    grid without a completed line. *)
Theorem minimax_finds_move (h : heap) l g player fuel :
  h !! l = Some g → valid_grid g → has_empty g → valid_player player →
  (n_empty g < fuel)%nat →
  (¬ has_win g →
     (∀ sq, g !! sq = Some None →
        ∃ v, child_value (pred fuel) g player sq = Ret v ∧ -1 ≤ v) ∧
     ∀ board, grid board = l →
       ∃ s m h', minimax fuel board player h = (Ret (s, Some m), h')) ∧
  (∀ rnd mode,
     default "difficult"%string mode ∈ values GAME_MODES →
     default "difficult"%string mode = "easy"%string ∨ ¬ has_win g →
     ∃ resp h', ai_move fuel rnd (request l player mode) h = (Ret resp, h') ∧
                resp ≠ InternalFailure).
Proof.
  intros Hl Hg He Hp Hfuel. split.
  - intros Hnw. pose proof (not_terminal g Hnw He) as Hnt.
    destruct (minimax_val_spec fuel g player Hg Hp Hfuel)
      as (s & m & Hval & _ & [[Ht _]|(_ & k & vk & -> & Hk & _ & _ & Hall)]);
      [done|].
    split.
    + intros sq Hsq. destruct (Hall sq Hsq) as (v & Hv & Hle & _).
      exists v. split; [done | lia].
    + intros board <-.
      destruct (minimax_refines fuel board player h g Hl) as (h' & Hrun & _).
      exists s, k, h'. by rewrite Hrun, Hval.
  - intros rnd mode Hmode Hcase.
    destruct (ai_move_valid_run fuel rnd l player mode h g Hl Hg He Hp Hmode Hfuel)
      as (resp & h' & Hrun & _ & [(m & _ & ->)|(_ & Hwin & Hmd)]).
    + by exists (Success m (<[m := Some player]> g) player), h'.
    + by destruct Hcase.
Qed.

Lemma minimax_finds_move_witness :
  (∃ s m h', minimax 7 board_1 PLAYER_O (heap_of open_grid) =
               (Ret (s, Some m), h')) ∧
  (∃ resp h',
     ai_move 7 draws (request 1 PLAYER_O (Some "easy"%string))
       (heap_of open_grid) = (Ret resp, h') ∧
     resp ≠ InternalFailure).
Proof.
  assert (¬ has_win open_grid) as Hnw.
  { intros Hw. apply (not_terminal_by_winner open_grid); [done..|by left]. }
  destruct (minimax_finds_move (heap_of open_grid) 1 open_grid PLAYER_O 7)
    as [Hsearch Hmove].
  - reflexivity.
  - valid_grid_tac.
  - by exists 2%nat.
  - by right.
  - vm_compute. lia.
  - split.
    + by apply (Hsearch Hnw).
    + apply Hmove; [|by left].
      simpl. rewrite GAME_MODES_values. repeat constructor.
Defined.

(** C10 as stated fails for the difficult mode: [lost_grid] has empty cells
    and X is a valid player, but O has completed the first row, so minimax
    returns no move and the endpoint gives its internal-failure answer. *)
Lemma ai_move_difficult_internal_failure :
  valid_grid lost_grid ∧ has_empty lost_grid ∧ valid_player PLAYER_X ∧
  (minimax 10 board_1 PLAYER_X (heap_of lost_grid)).1 = Ret (-1, None) ∧
  (ai_move 10 draws (request 1 PLAYER_X (Some "difficult"%string))
     (heap_of lost_grid)).1 = Ret InternalFailure.
Proof.
  split; [valid_grid_tac|]. split; [by exists 5%nat|]. split; [by left|].
  split; reflexivity.
Qed.

(** * Further properties *)

(** ** Players *)

(** X1: [switch_player] always returns X or O; on X and O it returns the
    other one, so that switching twice gives the player back; any other
    value is sent to X. *)
Theorem switch_player_swaps p :
  valid_player (switch_player p) ∧
  (valid_player p → switch_player p ≠ p ∧ switch_player (switch_player p) = p) ∧
  (p ≠ PLAYER_X → switch_player p = PLAYER_X).
Proof.
  split; [apply switch_player_valid|]. split.
  - intros [->| ->]; by vm_compute.
  - intros Hp. unfold switch_player. by destruct (decide (p = PLAYER_X)).
Qed.

Lemma switch_player_swaps_witness :
  valid_player (switch_player PLAYER_X) ∧
  (switch_player PLAYER_X ≠ PLAYER_X ∧
   switch_player (switch_player PLAYER_X) = PLAYER_X) ∧
  switch_player 7 = PLAYER_X.
Proof.
  destruct (switch_player_swaps PLAYER_X) as (Hv & Hswap & _).
  destruct (switch_player_swaps 7) as (_ & _ & Hother).
  split; [done|]. split; [apply Hswap; by left | by apply Hother].
Defined.

(** ** Board, further *)

(** X2: [get_empty_squares] reads the grid without changing the heap and
    returns exactly the indices that hold [None], each once, in ascending
    order. *)
Theorem get_empty_squares_spec (h : heap) self g :
  h !! grid self = Some g →
  ∃ squares, get_empty_squares self h = (Ret squares, h) ∧
    StronglySorted lt squares ∧
    (∀ k, k ∈ squares ↔ g !! k = Some None) ∧
    (length squares ≤ length g)%nat.
Proof.
  intros Hself. exists (empty_squares g).
  split; [by apply get_empty_squares_run|].
  split; [apply empty_squares_sorted|].
  split; [apply elem_of_empty_squares | apply n_empty_le].
Qed.

Lemma get_empty_squares_spec_witness :
  ∃ squares, get_empty_squares board_1 (heap_of open_grid) =
               (Ret squares, heap_of open_grid) ∧
    StronglySorted lt squares ∧
    (∀ k, k ∈ squares ↔ open_grid !! k = Some None) ∧
    (length squares ≤ length open_grid)%nat.
Proof.
  apply (get_empty_squares_spec (heap_of open_grid) board_1 open_grid).
  reflexivity.
Defined.

Lemma empty_from_all_none i g :
  Forall (λ c, c = None) g → length (empty_from i g) = length g.
Proof.
  intros Hall. revert i. induction Hall as [|c g -> _ IH]; intros i; simpl;
    [done | by rewrite IH].
Qed.

(** X3: on a 9-cell grid [is_empty] changes nothing and is [True] exactly
    when all nine cells are [None]. *)
Theorem is_empty_spec (h : heap) self g :
  h !! grid self = Some g → length g = 9%nat →
  ∃ b, is_empty self h = (Ret b, h) ∧
       (b = true ↔ g = replicate 9 None).
Proof.
  intros Hself Hlen. eexists. split; [by apply is_empty_run|].
  rewrite bool_decide_eq_true. unfold n_empty, empty_squares. split.
  - intros Hn. apply list_eq. intros k.
    destruct (decide (k < 9)%nat) as [Hk|Hk].
    + rewrite lookup_replicate_2 by done.
      apply (empty_from_full 0); [by rewrite Hlen | by rewrite Hlen].
    + rewrite !lookup_ge_None_2; [done | rewrite length_replicate; lia | lia].
  - intros ->. rewrite empty_from_all_none; [done|].
    by apply Forall_replicate.
Qed.

Lemma is_empty_spec_witness :
  ∃ b, is_empty board_1 (heap_of open_grid) = (Ret b, heap_of open_grid) ∧
       (b = true ↔ open_grid = replicate 9 None).
Proof.
  apply (is_empty_spec (heap_of open_grid) board_1 open_grid); reflexivity.
Defined.

(** X4: [make_move] on an index past the end of the grid raises
    [IndexError] and leaves the heap as it was. *)
Theorem make_move_out_of_range (h : heap) self g square player :
  h !! grid self = Some g → (length g ≤ square)%nat →
  make_move self square player h = (Raise IndexError, h).
Proof.
  intros Hself Hsq. rewrite (make_move_run self square player h g Hself).
  unfold mark, index. by rewrite lookup_ge_None_2.
Qed.

Lemma make_move_out_of_range_witness :
  make_move board_1 9 PLAYER_X (heap_of open_grid) =
    (Raise IndexError, heap_of open_grid).
Proof.
  apply (make_move_out_of_range (heap_of open_grid) board_1 open_grid 9 PLAYER_X).
  - reflexivity.
  - simpl. lia.
Defined.

(** X5: whatever calls of [make_move] are run on a board, also when one
    of them raises, the grid keeps its length, every mark that was on it
    is still there, and every cell that is empty afterwards was empty
    before; no other list of the heap changes. *)
Theorem make_moves_keep_marks b moves : ∀ (h : heap) g,
  h !! grid b = Some g →
  ∃ o g', make_moves b moves h = (o, <[grid b := g']> h) ∧
    (o = Ret () ∨ o = Raise IndexError) ∧
    length g' = length g ∧
    (∀ j v, g !! j = Some (Some v) → g' !! j = Some (Some v)) ∧
    (∀ j, g' !! j = Some None → g !! j = Some None).
Proof.
  induction moves as [|[sq p] moves IH]; intros h g Hb; simpl.
  { exists (Ret ()), g. rewrite insert_id by done. split; [done|]. by auto. }
  rewrite bind_run, (make_move_run b sq p h g Hb). unfold mark, index.
  destruct (g !! sq) as [[v|]|] eqn:Hsq; simpl.
  - destruct (IH (<[grid b := g]> h) g) as (o & g' & -> & Ho & Hlen & Hm & He);
      [apply lookup_insert_eq|].
    exists o, g'. by rewrite insert_insert_eq.
  - destruct (IH (<[grid b := <[sq := Some p]> g]> h) (<[sq := Some p]> g))
      as (o & g' & -> & Ho & Hlen & Hm & He); [apply lookup_insert_eq|].
    exists o, g'. rewrite insert_insert_eq. split; [done|]. split; [done|].
    split; [by rewrite Hlen, length_insert|]. split.
    + intros j v Hj. apply Hm. rewrite list_lookup_insert_ne; [done|].
      intros ->. congruence.
    + intros j Hj. specialize (He j Hj).
      destruct (decide (sq = j)) as [->|Hne].
      * rewrite list_lookup_insert_eq in He; [done|]. by eapply lookup_lt_Some.
      * by rewrite list_lookup_insert_ne in He.
  - exists (Raise IndexError), g. rewrite insert_id by done.
    split; [done|]. by auto.
Qed.

Lemma make_moves_keep_marks_witness :
  ∃ o g', make_moves board_1 [(2%nat, PLAYER_O); (0%nat, PLAYER_O)]
            (heap_of open_grid) =
            (o, <[grid board_1 := g']> (heap_of open_grid)) ∧
    (o = Ret () ∨ o = Raise IndexError) ∧
    length g' = length open_grid ∧
    (∀ j v, open_grid !! j = Some (Some v) → g' !! j = Some (Some v)) ∧
    (∀ j, g' !! j = Some None → open_grid !! j = Some None).
Proof.
  apply (make_moves_keep_marks board_1 [(2%nat, PLAYER_O); (0%nat, PLAYER_O)]
           (heap_of open_grid) open_grid).
  reflexivity.
Defined.

(** ** minimax, further *)

(** X6: [minimax] works on clones: for every grid content, player and
    budget, and also when it raises, every list that existed before the
    call, the grid of its board among them, has the same cells after. *)
Theorem minimax_read_only (h : heap) board g player fuel :
  h !! grid board = Some g →
  h ⊆ (minimax fuel board player h).2 ∧
  (minimax fuel board player h).2 !! grid board = Some g.
Proof.
  intros Hb.
  destruct (minimax_refines fuel board player h g Hb) as (h' & -> & Hsub).
  split; [done|]. by eapply lookup_weaken.
Qed.

Lemma minimax_read_only_witness :
  heap_of open_grid ⊆ (minimax 7 board_1 PLAYER_O (heap_of open_grid)).2 ∧
  (minimax 7 board_1 PLAYER_O (heap_of open_grid)).2 !! grid board_1 =
    Some open_grid.
Proof.
  apply (minimax_read_only (heap_of open_grid) board_1 open_grid PLAYER_O 7).
  reflexivity.
Defined.

(** X7: for a player that is no key of [SCORES] (not 0, 1 or 2)
    [minimax] raises [KeyError] before it looks at the board, also on a
    finished game. *)
Theorem minimax_unknown_player (h : heap) board player fuel :
  player ≠ PLAYER_X → player ≠ PLAYER_O → player ≠ DRAW →
  minimax (S fuel) board player h = (Raise KeyError, h).
Proof.
  intros HX HO HD. simpl. rewrite bind_run. unfold lift at 1.
  assert (subscript SCORES player = Raise KeyError) as ->; [|done].
  unfold subscript, SCORES.
  by rewrite !lookup_insert_ne, lookup_empty by done.
Qed.

Lemma minimax_unknown_player_witness :
  minimax 1 board_1 3 (heap_of won_grid) = (Raise KeyError, heap_of won_grid).
Proof. by apply (minimax_unknown_player (heap_of won_grid) board_1 3 0). Defined.

Lemma line_won_inj g combo v v' : line_won g combo v → line_won g combo v' → v = v'.
Proof. intros (H & _) (H' & _). congruence. Qed.

Lemma first_win_unique g i v i' v' :
  first_win g i v → first_win g i' v' → i = i' ∧ v = v'.
Proof.
  intros [(c & Hc & Hv) Hmin] [(c' & Hc' & Hv') Hmin'].
  destruct (lt_eq_lt_dec i i') as [[Hlt|Heq]|Hgt].
  - by destruct (Hmin' i c v Hlt Hc).
  - subst i'. split; [done|]. simplify_eq. by eapply line_won_inj.
  - by destruct (Hmin i' c' v' Hgt Hc').
Qed.

(** X8: on a terminal board [minimax] returns no move and a score that
    does not depend on the player to move: 1 when the first completed line
    is X's, -1 when it is O's, 0 when no line is completed. *)
Theorem minimax_terminal_score (h : heap) board g :
  h !! grid board = Some g → valid_grid g → terminal g →
  ∃ s, (∀ player fuel, valid_player player →
          minimax (S fuel) board player h = (Ret (s, None), h)) ∧
       ((∃ i, first_win g i PLAYER_X) → s = 1) ∧
       ((∃ i, first_win g i PLAYER_O) → s = -1) ∧
       (¬ has_win g → s = 0).
Proof.
  intros Hb Hg Ht.
  destruct (get_winner_run board h g Hb) as (b' & _ & Hw).
  assert (∀ w s, winner_of g = Ret (Some w) → subscript SCORES w = Ret s →
    ∀ player fuel, valid_player player →
      minimax (S fuel) board player h = (Ret (s, None), h)) as Hrun.
  { intros w s Hwin Hs player fuel Hp.
    destruct (SCORES_player player Hp) as (mult & Hmult & _).
    simpl. rewrite bind_run. unfold lift at 1. rewrite Hmult.
    rewrite bind_run, Hw, Hwin. simpl.
    rewrite bind_run. unfold lift. by rewrite Hs. }
  destruct (winner_of_spec g (proj1 Hg))
    as [(i & v & Hwin & Hf)|[(Hwin & Hnw & _)|(_ & Hnw & He)]].
  - assert (valid_player v) as Hv.
    { destruct Hf as [(c & _ & Hc & _) _].
      apply list_elem_of_lookup_2 in Hc.
      destruct Hg as [_ Hall]. rewrite Forall_forall in Hall.
      destruct (Hall _ Hc) as [?|[?|?]]; simplify_eq; [by left | by right]. }
    destruct Hv as [->| ->].
    + exists 1. split; [by apply (Hrun PLAYER_X)|]. split; [done|]. split.
      * intros [i' Hi']. by destruct (first_win_unique _ _ _ _ _ Hf Hi').
      * intros Hno. destruct Hno. by eapply first_win_has_win.
    + exists (-1). split; [by apply (Hrun PLAYER_O)|]. split.
      * intros [i' Hi']. by destruct (first_win_unique _ _ _ _ _ Hf Hi').
      * split; [done|]. intros Hno. destruct Hno. by eapply first_win_has_win.
  - exists 0. split; [by apply (Hrun DRAW)|].
    split; [|split; [|done]]; intros [i Hi]; destruct Hnw;
      by eapply first_win_has_win.
  - by destruct Ht.
Qed.

Lemma terminal_won_grid : terminal won_grid.
Proof.
  left. exists (0, 1, 2)%nat, PLAYER_X. split; [left | by repeat split].
Qed.

Lemma minimax_terminal_score_witness :
  ∃ s, (∀ player fuel, valid_player player →
          minimax (S fuel) board_1 player (heap_of won_grid) =
            (Ret (s, None), heap_of won_grid)) ∧
       ((∃ i, first_win won_grid i PLAYER_X) → s = 1) ∧
       ((∃ i, first_win won_grid i PLAYER_O) → s = -1) ∧
       (¬ has_win won_grid → s = 0).
Proof.
  apply (minimax_terminal_score (heap_of won_grid) board_1 won_grid).
  - reflexivity.
  - valid_grid_tac.
  - apply terminal_won_grid.
Defined.

(** X9: on a 9-cell board of X, O and empty cells the score returned by
    [minimax] is -1, 0 or 1. *)
Theorem minimax_score_range (h : heap) board g player fuel :
  h !! grid board = Some g → valid_grid g → valid_player player →
  (n_empty g < fuel)%nat →
  ∃ s m h', minimax fuel board player h = (Ret (s, m), h') ∧
            (s = -1 ∨ s = 0 ∨ s = 1).
Proof.
  intros Hb Hg Hp Hfuel.
  destruct (minimax_run fuel board player h g Hb Hg Hp Hfuel)
    as (s & m & h' & Hrun & _ & Hval).
  destruct (minimax_val_spec fuel g player Hg Hp Hfuel)
    as (s' & m' & Hval' & Hrange & _).
  rewrite Hval in Hval'. simplify_eq.
  exists s', m', h'. split; [done | lia].
Qed.

Lemma minimax_score_range_witness :
  ∃ s m h', minimax 7 board_1 PLAYER_O (heap_of open_grid) =
              (Ret (s, m), h') ∧
            (s = -1 ∨ s = 0 ∨ s = 1).
Proof.
  apply (minimax_score_range (heap_of open_grid) board_1 open_grid PLAYER_O 7).
  - reflexivity.
  - valid_grid_tac.
  - by right.
  - vm_compute. lia.
Defined.

(** A line completed by a move onto an empty square holds the mark of the
    mover, unless it was completed before. *)
Lemma line_won_after_move g sq p combo v :
  g !! sq = Some None → line_won (<[sq := Some p]> g) combo v →
  v = p ∨ line_won g combo v.
Proof.
  intros Hsq. destruct combo as [[c0 c1] c2]. unfold line_won. simpl.
  intros (H0 & H1 & H2).
  assert (∀ c, <[sq := Some p]> g !! c = Some (Some v) →
               v = p ∨ g !! c = Some (Some v)) as Hcell.
  { intros c Hc. destruct (decide (sq = c)) as [->|Hne].
    - rewrite list_lookup_insert_eq in Hc by (by eapply lookup_lt_Some).
      left. congruence.
    - right. by rewrite list_lookup_insert_ne in Hc. }
  destruct (Hcell _ H0) as [?|?]; [by left|].
  destruct (Hcell _ H1) as [?|?]; [by left|].
  destruct (Hcell _ H2) as [?|?]; [by left|]. by right.
Qed.

Lemma winner_after_winning_move g sq p :
  length g = 9%nat → ¬ has_win g → g !! sq = Some None →
  has_win (<[sq := Some p]> g) →
  winner_of (<[sq := Some p]> g) = Ret (Some p).
Proof.
  intros Hlen Hnw Hsq Hwin.
  destruct (winner_of_spec (<[sq := Some p]> g))
    as [(i & v & Hw & Hf)|[(_ & Hno & _)|(_ & Hno & _)]];
    [by rewrite length_insert | | done | done].
  destruct Hf as [(c & Hc & Hv) _].
  destruct (line_won_after_move g sq p c v Hsq Hv) as [->|Hold]; [done|].
  destruct Hnw. exists c, v. split; [|done]. by eapply list_elem_of_lookup_2.
Qed.

(** X10: when the player to move can complete a line with one move and no
    line is completed yet, [minimax] returns the score of a win of that
    player ([SCORES[player]]) and a move whose value for the player is
    1. *)
Theorem minimax_takes_win (h : heap) board g player square fuel :
  h !! grid board = Some g → valid_grid g → valid_player player →
  ¬ has_win g → g !! square = Some None →
  has_win (<[square := Some player]> g) →
  (n_empty g < fuel)%nat →
  ∃ s k h', minimax fuel board player h = (Ret (s, Some k), h') ∧
            subscript SCORES player = Ret s ∧
            g !! k = Some None ∧
            child_value (pred fuel) g player k = Ret 1.
Proof.
  intros Hb Hg Hp Hnw Hsq Hwin Hfuel.
  destruct (SCORES_player player Hp) as (mult & Hmult & Hsign).
  assert (child_value (pred fuel) g player square = Ret 1) as Hone.
  { pose proof (n_empty_insert g square player Hsq) as Hn.
    destruct fuel as [|[|fuel]]; [lia..|]. simpl pred.
    unfold child_value. rewrite Hmult. simpl.
    rewrite (mark_empty g square player Hsq). simpl.
    destruct (SCORES_player _ (switch_player_valid player)) as (m' & -> & _).
    simpl.
    rewrite (winner_after_winning_move g square player (proj1 Hg) Hnw Hsq Hwin).
    simpl. rewrite Hmult. simpl. f_equal. destruct Hsign as [->| ->]; lia. }
  destruct (minimax_run fuel board player h g Hb Hg Hp Hfuel)
    as (s & m & h' & Hrun & _ & Hval).
  destruct (minimax_val_spec fuel g player Hg Hp Hfuel)
    as (s' & m' & Hval' & Hrange &
        [[Ht _]|(_ & k & vk & -> & Hk & Hvk & (mult' & Hm' & ->) & Hall)]).
  { destruct Ht as [?|Hne]; [done|]. destruct Hne. by exists square. }
  rewrite Hval in Hval'. simplify_eq.
  destruct (Hall square Hsq) as (v & Hv & Hle & _).
  rewrite Hone in Hv. rewrite Hmult in Hm'. simplify_eq.
  assert (vk = 1) as -> by (destruct Hsign as [->| ->]; lia).
  exists (mult' * 1), k, h'. split; [done|].
  split; [by rewrite Z.mul_1_r|]. done.
Qed.

Lemma minimax_takes_win_witness :
  ∃ s k h', minimax 7 board_1 PLAYER_O (heap_of open_grid) =
              (Ret (s, Some k), h') ∧
            subscript SCORES PLAYER_O = Ret s ∧
            open_grid !! k = Some None ∧
            child_value 6 open_grid PLAYER_O k = Ret 1.
Proof.
  apply (minimax_takes_win (heap_of open_grid) board_1 open_grid PLAYER_O 5 7).
  - reflexivity.
  - valid_grid_tac.
  - by right.
  - intros Hw. apply (not_terminal_by_winner open_grid); [done..|by left].
  - reflexivity.
  - exists (3, 4, 5)%nat, PLAYER_O. split; [right; left | by repeat split].
  - vm_compute. lia.
Defined.

(** ** The ai_move endpoint, further *)

Lemma valid_player_elem p : valid_player p ↔ p ∈ [PLAYER_X; PLAYER_O].
Proof.
  unfold valid_player. rewrite !elem_of_cons, elem_of_nil. tauto.
Qed.

(** X11: the order of validation in [ai_move]: no payload, then a missing
    grid or player, then (for a 9-cell grid) a player other than 1 and 2,
    then an unknown mode; each is answered with its own 400 message, for
    every budget and every draw, and the heap is left as it was. *)
Theorem ai_move_rejects (h : heap) fuel rnd :
  ai_move fuel rnd None h = (Ret (Failure 400 "No data provided"), h) ∧
  (∀ data, p_grid data = None ∨ p_ai_player data = None →
     ai_move fuel rnd (Some data) h =
       (Ret (Failure 400 "Missing required fields: grid, ai_player"), h)) ∧
  (∀ l g player mode, h !! l = Some g → length g = 9%nat →
     ¬ valid_player player →
     ai_move fuel rnd (request l player mode) h = (Ret InvalidPlayer, h)) ∧
  (∀ l g player mode, h !! l = Some g → length g = 9%nat →
     valid_player player →
     default "difficult"%string mode ∉ values GAME_MODES →
     ai_move fuel rnd (request l player mode) h =
       (Ret (Failure 400 "Invalid mode. Use: easy, medium, or difficult"), h)).
Proof.
  split; [done|]. split; [|split].
  - intros [gr pl md] [Hn|Hn]; simpl in Hn; subst; unfold ai_move, try_except;
      cbn [p_grid p_ai_player p_mode]; [done | by destruct gr].
  - intros l g player mode Hl Hlen Hp. unfold ai_move, request, try_except.
    cbn [p_grid p_ai_player p_mode].
    rewrite bind_run, (deref_run l h g Hl).
    destruct (decide (length g ≠ 9%nat)) as [|_]; [done|].
    destruct (decide (player ∉ [PLAYER_X; PLAYER_O])) as [_|Hin]; [done|].
    destruct Hp. apply valid_player_elem.
    by destruct (decide (player ∈ [PLAYER_X; PLAYER_O])).
  - intros l g player mode Hl Hlen Hp Hmode. unfold ai_move, request, try_except.
    cbn [p_grid p_ai_player p_mode].
    rewrite bind_run, (deref_run l h g Hl).
    destruct (decide (length g ≠ 9%nat)) as [|_]; [done|].
    destruct (decide (player ∉ [PLAYER_X; PLAYER_O])) as [Hnp|_].
    { destruct Hnp. by apply valid_player_elem. }
    by destruct (decide (_ ∉ values GAME_MODES)).
Qed.

Lemma not_valid_mode : "hard"%string ∉ values GAME_MODES.
Proof.
  rewrite GAME_MODES_values. intros H.
  repeat (apply elem_of_cons in H as [H|H]; [discriminate|]).
  by apply elem_of_nil in H.
Qed.

Lemma ai_move_rejects_witness :
  ai_move 0 draws (Some {| p_grid := None; p_ai_player := Some 1;
                           p_mode := None |}) (heap_of full_grid) =
    (Ret (Failure 400 "Missing required fields: grid, ai_player"),
     heap_of full_grid) ∧
  ai_move 0 draws (request 1 0 None) (heap_of full_grid) =
    (Ret InvalidPlayer, heap_of full_grid) ∧
  ai_move 0 draws (request 1 PLAYER_X (Some "hard"%string))
    (heap_of full_grid) =
    (Ret (Failure 400 "Invalid mode. Use: easy, medium, or difficult"),
     heap_of full_grid).
Proof.
  destruct (ai_move_rejects (heap_of full_grid) 0 draws)
    as (_ & Hmissing & Hplayer & Hmode).
  split; [apply Hmissing; by left|]. split.
  - apply (Hplayer 1%positive full_grid); [reflexivity..|].
    intros [?|?]; discriminate.
  - apply (Hmode 1%positive full_grid); [reflexivity.. | by left |].
    apply not_valid_mode.
Defined.

Lemma try_except_run {A} (m : M A) handler (h : heap) a h' :
  m h = (Ret a, h') → try_except m handler h = (Ret a, h').
Proof. intros Hm. unfold try_except. by rewrite Hm. Qed.

Lemma copy_keeps (h : heap) l g g0 :
  h !! l = Some g → <[fresh (dom h) := g0]> h !! l = Some g.
Proof. intros Hl. eapply lookup_weaken; [done | apply alloc_subseteq]. Qed.

Lemma two_copies_subseteq (h : heap) g1 g2 :
  h ⊆ <[fresh (dom (<[fresh (dom h) := g1]> h)) := g2]>
        (<[fresh (dom h) := g1]> h).
Proof. etrans; apply alloc_subseteq. Qed.

Lemma medium_valid : "medium"%string ∈ values GAME_MODES.
Proof. rewrite GAME_MODES_values. repeat constructor. Qed.

Lemma easy_valid : "easy"%string ∈ values GAME_MODES.
Proof. rewrite GAME_MODES_values. repeat constructor. Qed.

Lemma difficult_valid : "difficult"%string ∈ values GAME_MODES.
Proof. rewrite GAME_MODES_values. repeat constructor. Qed.

(** A request that passes validation is answered by [choose_move] followed
    by [apply_move], run on the heap that holds the copy of the grid. *)
Lemma ai_move_prefix fuel rnd l p md (h : heap) g :
  h !! l = Some g → length g = 9%nat → has_empty g → valid_player p →
  default "difficult"%string md ∈ values GAME_MODES →
  ai_move fuel rnd (request l p md) h =
  try_except
    (move_index ← choose_move fuel rnd (default "difficult"%string md)
                   {| grid := fresh (dom h); winning_index := None |} p
                   (empty_squares g);
     apply_move l p (empty_squares g) move_index)
    (λ e, M_ret (ServerError e))
    (<[fresh (dom h) := g]> h).
Proof.
  intros Hl Hlen He Hp Hmode.
  unfold ai_move, request, try_except.
  cbn [p_grid p_ai_player p_mode].
  rewrite bind_run, (deref_run l h g Hl).
  destruct (decide (length g ≠ 9%nat)) as [|_]; [done|].
  destruct (decide (p ∉ [PLAYER_X; PLAYER_O])) as [Hnp|_].
  { destruct Hnp. by apply valid_player_elem. }
  destruct (decide (_ ∉ values GAME_MODES)) as [|_]; [done|].
  rewrite bind_run, (list_copy_run l h g Hl).
  rewrite bind_run, Board_init_run.
  rewrite bind_run, (get_empty_squares_run _ _ g) by apply lookup_insert_eq.
  destruct (decide (empty_squares g = [])) as [Hnil|_].
  { by apply empty_squares_nil in Hnil. }
  reflexivity.
Qed.

Lemma apply_move_run l m p (h : heap) g :
  h !! l = Some g → g !! m = Some None →
  apply_move l p (empty_squares g) (Some m) h =
  (Ret (Success m (<[m := Some p]> g) p),
   <[fresh (dom h) := <[m := Some p]> g]> h).
Proof. apply make_the_move_run. Qed.

(** The three ways [choose_move] draws or searches. *)
Lemma choose_move_easy fuel rnd board p squares (h : heap) :
  choose_move fuel rnd "easy" board p squares h =
  (m ← lift (random_choice rnd squares); mret (Some m)) h.
Proof.
  unfold choose_move. rewrite bind_run. unfold lift at 1.
  rewrite GAME_MODES_easy. by destruct (decide _).
Qed.

Lemma choose_move_medium fuel rnd board p squares (h : heap) g :
  h !! grid board = Some g →
  choose_move fuel rnd "medium" board p squares h =
  (if bool_decide (n_empty g = 9%nat) || random_lt_half rnd
   then m ← lift (random_choice rnd squares); mret (Some m)
   else r ← minimax fuel board p; mret (r.2)) h.
Proof.
  intros Hb. unfold choose_move. rewrite bind_run. unfold lift at 1.
  rewrite GAME_MODES_easy. destruct (decide _) as [|_]; [done|].
  rewrite bind_run. unfold lift at 1. rewrite GAME_MODES_medium.
  destruct (decide _) as [_|]; [|done].
  by rewrite bind_run, (is_empty_run board h g Hb).
Qed.

Lemma choose_move_difficult fuel rnd board p squares (h : heap) g :
  h !! grid board = Some g →
  choose_move fuel rnd "difficult" board p squares h =
  (if bool_decide (n_empty g = 9%nat)
   then mret (Some (random_randint_0_8 rnd))
   else r ← minimax fuel board p; mret (r.2)) h.
Proof.
  intros Hb. unfold choose_move. rewrite bind_run. unfold lift at 1.
  rewrite GAME_MODES_easy. destruct (decide _) as [|_]; [done|].
  rewrite bind_run. unfold lift at 1. rewrite GAME_MODES_medium.
  destruct (decide _) as [|_]; [done|].
  by rewrite bind_run, (is_empty_run board h g Hb).
Qed.

Lemma choose_move_cases fuel rnd mode board p squares (h : heap) g :
  h !! grid board = Some g → mode ∈ values GAME_MODES →
  choose_move fuel rnd mode board p squares h =
  (if decide (mode = "easy"%string) then
     m ← lift (random_choice rnd squares); mret (Some m)
   else if decide (mode = "medium"%string) then
     if bool_decide (n_empty g = 9%nat) || random_lt_half rnd
     then m ← lift (random_choice rnd squares); mret (Some m)
     else r ← minimax fuel board p; mret (r.2)
   else
     if bool_decide (n_empty g = 9%nat)
     then mret (Some (random_randint_0_8 rnd))
     else r ← minimax fuel board p; mret (r.2)) h.
Proof.
  intros Hb. rewrite GAME_MODES_values.
  intros [->|[->|[->|[]%elem_of_nil]%elem_of_cons]%elem_of_cons]%elem_of_cons.
  - by rewrite (choose_move_medium _ _ _ _ _ _ g).
  - by rewrite choose_move_easy.
  - by rewrite (choose_move_difficult _ _ _ _ _ _ g).
Qed.

(** A square drawn without a search is marked on a second copy. *)
Lemma ai_move_drawn fuel rnd l p md (h : heap) g m :
  h !! l = Some g → length g = 9%nat → valid_player p →
  default "difficult"%string md ∈ values GAME_MODES →
  g !! m = Some None →
  choose_move fuel rnd (default "difficult"%string md)
    {| grid := fresh (dom h); winning_index := None |} p (empty_squares g)
    (<[fresh (dom h) := g]> h) = (Ret (Some m), <[fresh (dom h) := g]> h) →
  ∃ h', ai_move fuel rnd (request l p md) h =
          (Ret (Success m (<[m := Some p]> g) p), h') ∧ h ⊆ h'.
Proof.
  intros Hl Hlen Hp Hmode Hm Hchoose.
  rewrite (ai_move_prefix fuel rnd l p md h g Hl Hlen); [|by exists m|done..].
  eexists. split; [|apply two_copies_subseteq].
  apply try_except_run. rewrite bind_run, Hchoose.
  apply apply_move_run; [by apply copy_keeps | done].
Qed.

(** X12: in easy mode a 9-cell grid with an empty cell is always answered
    with a move, whatever the cells hold and without any search (the
    budget may be 0): the move is the empty square picked by
    [random.choice], and every empty square is the answer for some
    draw. *)
Theorem ai_move_easy (h : heap) l g player fuel :
  h !! l = Some g → length g = 9%nat → valid_player player →
  (∀ rnd, has_empty g →
     ∃ m h', ai_move fuel rnd (request l player (Some "easy"%string)) h =
               (Ret (Success m (<[m := Some player]> g) player), h') ∧
             random_choice rnd (empty_squares g) = Ret m ∧
             g !! m = Some None ∧ h ⊆ h') ∧
  (∀ k, g !! k = Some None →
     ∃ rnd h', ai_move fuel rnd (request l player (Some "easy"%string)) h =
                 (Ret (Success k (<[k := Some player]> g) player), h')).
Proof.
  intros Hl Hlen Hp.
  assert (∀ rnd m, random_choice rnd (empty_squares g) = Ret m →
    g !! m = Some None →
    ∃ h', ai_move fuel rnd (request l player (Some "easy"%string)) h =
            (Ret (Success m (<[m := Some player]> g) player), h') ∧ h ⊆ h')
    as Hrun.
  { intros rnd m Hm Hempty.
    apply ai_move_drawn; [done..|apply easy_valid|done|].
    simpl default. rewrite choose_move_easy, bind_run. unfold lift.
    by rewrite Hm. }
  split.
  - intros rnd He.
    destruct (random_choice_elem rnd (empty_squares g))
      as (m & Hm & Hin%elem_of_empty_squares).
    { by intros ?%empty_squares_nil. }
    destruct (Hrun rnd m Hm Hin) as (h' & Hr & Hsub). by exists m, h'.
  - intros k Hk.
    destruct (list_elem_of_lookup_1 (empty_squares g) k) as [i Hi];
      [by apply elem_of_empty_squares|].
    set (rnd := {| choice_draw := i; random_lt_half := false;
                   randint_draw := 0 |}).
    destruct (Hrun rnd k) as (h' & Hr & _); [|done|by exists rnd, h'].
    unfold random_choice, index. simpl.
    rewrite Nat.mod_small by (by eapply lookup_lt_Some). by rewrite Hi.
Qed.

Lemma ai_move_easy_witness :
  (∀ rnd, has_empty odd_grid →
     ∃ m h', ai_move 0 rnd (request 1 PLAYER_X (Some "easy"%string))
               (heap_of odd_grid) =
               (Ret (Success m (<[m := Some PLAYER_X]> odd_grid) PLAYER_X), h') ∧
             random_choice rnd (empty_squares odd_grid) = Ret m ∧
             odd_grid !! m = Some None ∧ heap_of odd_grid ⊆ h') ∧
  (∀ k, odd_grid !! k = Some None →
     ∃ rnd h', ai_move 0 rnd (request 1 PLAYER_X (Some "easy"%string))
                 (heap_of odd_grid) =
                 (Ret (Success k (<[k := Some PLAYER_X]> odd_grid) PLAYER_X), h')).
Proof.
  apply (ai_move_easy (heap_of odd_grid) 1 odd_grid PLAYER_X 0).
  - reflexivity.
  - reflexivity.
  - by left.
Defined.

Lemma reset_game_run (h : heap) :
  reset_game h =
  (Ret (ResetOk (replicate 9 None) "Game reset successfully"),
   <[fresh (dom h) := replicate 9 None]> h).
Proof.
  unfold reset_game, try_except, alloc. rewrite bind_run, bind_run.
  by rewrite (deref_run _ _ (replicate 9 None)) by apply lookup_insert_eq.
Qed.

(** X13: the grid of [reset_game] has nine empty cells, and sent to
    [ai_move] with a valid player it is answered in every mode, without any
    search, by a grid with exactly that one mark, at an index below 9. *)
Theorem ai_move_after_reset (h0 h0' h : heap) l g message player mode fuel rnd :
  reset_game h0 = (Ret (ResetOk g message), h0') →
  h !! l = Some g → valid_player player →
  default "difficult"%string mode ∈ values GAME_MODES →
  h0 ⊆ h0' ∧ g = replicate 9 None ∧
  ∃ m h', ai_move fuel rnd (request l player mode) h =
            (Ret (Success m (<[m := Some player]> g) player), h') ∧
          (m < 9)%nat ∧ h ⊆ h'.
Proof.
  intros Hreset Hl Hp Hmode.
  assert (g = replicate 9 None ∧ h0 ⊆ h0') as [Hg Hsub0].
  { rewrite reset_game_run in Hreset. simplify_eq.
    split; [done | apply alloc_subseteq]. }
  do 2 (split; [done|]).
  assert (∀ m, g !! m = Some None ↔ (m < 9)%nat) as Hcell.
  { intros m. rewrite Hg, lookup_replicate. split; [by intros [_ ?] | done]. }
  assert (length g = 9%nat) as Hlen by (by rewrite Hg).
  assert (n_empty g = 9%nat) as Hn by (by rewrite Hg).
  destruct (random_choice_elem rnd (empty_squares g))
    as (mc & Hchoice & Hmc%elem_of_empty_squares).
  { intros Hnil%empty_squares_nil. destruct Hnil. exists 0%nat.
    apply Hcell. lia. }
  assert (∃ m, (m < 9)%nat ∧
    choose_move fuel rnd (default "difficult"%string mode)
      {| grid := fresh (dom h); winning_index := None |} player
      (empty_squares g) (<[fresh (dom h) := g]> h) =
    (Ret (Some m), <[fresh (dom h) := g]> h)) as (m & Hm & Hchoose).
  { rewrite (choose_move_cases _ _ _ _ _ _ _ g)
      by (done || apply lookup_insert_eq).
    rewrite bool_decide_eq_true_2 by done. cbn [orb].
    destruct (decide _); [|destruct (decide _)].
    - exists mc. split; [by apply Hcell|].
      rewrite bind_run. unfold lift. by rewrite Hchoice.
    - exists mc. split; [by apply Hcell|].
      rewrite bind_run. unfold lift. by rewrite Hchoice.
    - exists (random_randint_0_8 rnd).
      split; [by apply Nat.mod_upper_bound | done]. }
  destruct (ai_move_drawn fuel rnd l player mode h g m)
    as (h' & Hr & Hsub); [done..|by apply Hcell|done|].
  by exists m, h'.
Qed.

Lemma ai_move_after_reset_witness :
  heap_of full_grid ⊆ (reset_game (heap_of full_grid)).2 ∧
  replicate 9 None = replicate 9 (None : cell) ∧
  ∃ m h', ai_move 0 draws (request 1 PLAYER_X None) (heap_of (replicate 9 None)) =
            (Ret (Success m (<[m := Some PLAYER_X]> (replicate 9 None)) PLAYER_X),
             h') ∧
          (m < 9)%nat ∧ heap_of (replicate 9 None) ⊆ h'.
Proof.
  apply (ai_move_after_reset (heap_of full_grid)
           (reset_game (heap_of full_grid)).2 (heap_of (replicate 9 None)) 1
           (replicate 9 None) "Game reset successfully" PLAYER_X None 0 draws).
  - reflexivity.
  - reflexivity.
  - by left.
  - apply difficult_valid.
Defined.

(** X14: on a request that passes validation the medium mode answers as
    the easy mode when [random.random() < 0.5], and as the difficult mode
    otherwise, provided the board is not empty. *)
Theorem ai_move_medium (h : heap) l g player fuel rnd :
  h !! l = Some g → length g = 9%nat → has_empty g → valid_player player →
  (random_lt_half rnd = true →
   ai_move fuel rnd (request l player (Some "medium"%string)) h =
   ai_move fuel rnd (request l player (Some "easy"%string)) h) ∧
  (random_lt_half rnd = false → n_empty g ≠ 9%nat →
   ai_move fuel rnd (request l player (Some "medium"%string)) h =
   ai_move fuel rnd (request l player (Some "difficult"%string)) h).
Proof.
  intros Hl Hlen He Hp.
  rewrite (ai_move_prefix fuel rnd l player (Some "medium"%string) h g
             Hl Hlen He Hp medium_valid).
  rewrite (ai_move_prefix fuel rnd l player (Some "easy"%string) h g
             Hl Hlen He Hp easy_valid).
  rewrite (ai_move_prefix fuel rnd l player (Some "difficult"%string) h g
             Hl Hlen He Hp difficult_valid).
  unfold try_except. rewrite !bind_run. simpl default.
  rewrite choose_move_easy.
  rewrite (choose_move_medium _ _ _ _ _ _ g) by apply lookup_insert_eq.
  rewrite (choose_move_difficult _ _ _ _ _ _ g) by apply lookup_insert_eq.
  split.
  - intros ->. by rewrite orb_true_r.
  - intros -> Hn. by rewrite bool_decide_eq_false_2 by done.
Qed.

Lemma ai_move_medium_witness :
  (true = true →
   ai_move 7 {| choice_draw := 1; random_lt_half := true; randint_draw := 0 |}
     (request 1 PLAYER_O (Some "medium"%string)) (heap_of open_grid) =
   ai_move 7 {| choice_draw := 1; random_lt_half := true; randint_draw := 0 |}
     (request 1 PLAYER_O (Some "easy"%string)) (heap_of open_grid)) ∧
  (false = false → n_empty open_grid ≠ 9%nat →
   ai_move 7 draws (request 1 PLAYER_O (Some "medium"%string))
     (heap_of open_grid) =
   ai_move 7 draws (request 1 PLAYER_O (Some "difficult"%string))
     (heap_of open_grid)).
Proof.
  split.
  - apply (ai_move_medium (heap_of open_grid) 1 open_grid PLAYER_O 7
             {| choice_draw := 1; random_lt_half := true; randint_draw := 0 |});
      [reflexivity | reflexivity | by exists 2%nat | by right].
  - apply (ai_move_medium (heap_of open_grid) 1 open_grid PLAYER_O 7 draws);
      [reflexivity | reflexivity | by exists 2%nat | by right].
Defined.

Lemma winner_of_first_win g i v :
  length g = 9%nat → first_win g i v → winner_of g = Ret (Some v).
Proof.
  intros Hlen Hf.
  destruct (winner_of_spec g Hlen)
    as [(i' & v' & Hw & Hf')|[(_ & Hno & _)|(_ & Hno & _)]].
  - by destruct (first_win_unique _ _ _ _ _ Hf Hf') as [_ ->].
  - destruct Hno. by eapply first_win_has_win.
  - destruct Hno. by eapply first_win_has_win.
Qed.

Lemma not_board_empty g k v :
  length g = 9%nat → g !! k = Some (Some v) → n_empty g ≠ 9%nat.
Proof.
  intros Hlen Hk Hn.
  assert (g !! k = Some None); [|congruence].
  apply (empty_from_full 0); [by rewrite Hlen | by eapply lookup_lt_Some].
Qed.

(** X15: cell values are not validated.  When the first completed line of
    the grid holds a mark that is no key of [SCORES] and an empty cell
    remains, the difficult mode runs into [KeyError] in [minimax] and the
    catch-all handler answers with a server error; lists that existed
    before are unchanged. *)
Theorem ai_move_unknown_mark (h : heap) l g i v player fuel rnd :
  h !! l = Some g → length g = 9%nat → has_empty g →
  first_win g i v → v ≠ PLAYER_X → v ≠ PLAYER_O → v ≠ DRAW →
  valid_player player →
  ∃ h', ai_move (S fuel) rnd (request l player (Some "difficult"%string)) h =
          (Ret (ServerError KeyError), h') ∧ h ⊆ h'.
Proof.
  intros Hl Hlen He Hf HX HO HD Hp.
  rewrite (ai_move_prefix (S fuel) rnd l player (Some "difficult"%string) h g
             Hl Hlen He Hp difficult_valid).
  exists (<[fresh (dom h) := g]> h). split; [|apply alloc_subseteq].
  unfold try_except. rewrite bind_run. simpl default.
  rewrite (choose_move_difficult _ _ _ _ _ _ g) by apply lookup_insert_eq.
  assert (n_empty g ≠ 9%nat) as Hn.
  { destruct Hf as [(c & _ & Hc & _) _]. by eapply not_board_empty. }
  rewrite bool_decide_eq_false_2 by done.
  rewrite bind_run. simpl minimax. rewrite bind_run. unfold lift at 1.
  destruct (SCORES_player player Hp) as (mult & -> & _).
  destruct (get_winner_run {| grid := fresh (dom h); winning_index := None |}
              (<[fresh (dom h) := g]> h) g) as (b' & _ & Hw);
    [apply lookup_insert_eq|].
  rewrite bind_run, Hw, (winner_of_first_win g i v Hlen Hf). simpl.
  rewrite bind_run. unfold lift at 1.
  assert (subscript SCORES v = Raise KeyError) as ->; [|done].
  unfold subscript, SCORES.
  by rewrite !lookup_insert_ne, lookup_empty by done.
Qed.

Lemma ai_move_unknown_mark_witness :
  ∃ h', ai_move 1 draws (request 1 PLAYER_X (Some "difficult"%string))
          (heap_of odd_grid) = (Ret (ServerError KeyError), h') ∧
        heap_of odd_grid ⊆ h'.
Proof.
  apply (ai_move_unknown_mark (heap_of odd_grid) 1 odd_grid 0 7 PLAYER_X 0 draws).
  - reflexivity.
  - reflexivity.
  - by exists 3%nat.
  - split; [by exists (0, 1, 2)%nat | intros; lia].
  - discriminate.
  - discriminate.
  - discriminate.
  - by left.
Defined.

(** ** The check_winner endpoint *)

(** What [check_winner] answers on a 9-cell grid, by the three results of
    the scan. *)
Lemma check_winner_run (h : heap) data l g :
  p_grid data = Some l → h !! l = Some g → length g = 9%nat →
  ∃ winner line,
    check_winner (Some data) h =
      (Ret (WinnerResult winner (bool_decide (winner ≠ None)) line
              (winner_name_of winner)), h) ∧
    ((∃ i v, first_win g i v ∧ winner = Some v ∧ line = Some i) ∨
     (¬ has_win g ∧ ¬ has_empty g ∧ winner = Some DRAW ∧ line = None) ∨
     (¬ has_win g ∧ has_empty g ∧ winner = None ∧ line = None)).
Proof.
  intros Hdata Hl Hlen. unfold check_winner, try_except. rewrite Hdata.
  rewrite bind_run, (deref_run l h g Hl).
  destruct (decide (length g ≠ 9%nat)) as [|_]; [done|].
  rewrite bind_run, Board_init_run, bind_run. unfold get_winner.
  rewrite bind_run, (deref_run _ h g) by done. rewrite bind_run. unfold lift.
  destruct (scan_winning_combos g Hlen) as [(i & v & -> & Hw)|[-> Hno]].
  - eexists _, _. split; [done|]. left. by exists i, v.
  - destruct (decide (length (empty_squares g) = 0%nat)) as [E|E].
    + eexists _, _. split; [done|]. right. left.
      split; [done|]. split; [|done].
      apply empty_squares_nil. by apply nil_length_inv.
    + eexists _, _. split; [done|]. right. right.
      split; [done|]. split; [|done].
      destruct (empty_squares g) as [|k sq] eqn:Hk; [done|].
      exists k. apply elem_of_empty_squares. rewrite Hk. left.
Qed.

(** X16: on a 9-cell grid [check_winner] answers with a result object and
    leaves the heap exactly as it was: [game_over] is true exactly when a
    line is completed or no cell is empty, [winning_index] is the number of
    the first completed line and is unset when there is none, and [winner]
    is the mark of that line, or [DRAW] when the grid is full without a
    line. *)
Theorem check_winner_result (h : heap) data l g :
  p_grid data = Some l → h !! l = Some g → length g = 9%nat →
  ∃ winner over line name,
    check_winner (Some data) h =
      (Ret (WinnerResult winner over line name), h) ∧
    (over = true ↔ terminal g) ∧
    (∀ i, line = Some i ↔ ∃ v, first_win g i v) ∧
    (∀ v, winner = Some v ↔
          (∃ i, first_win g i v) ∨ (v = DRAW ∧ ¬ has_win g ∧ ¬ has_empty g)).
Proof.
  intros Hdata Hl Hlen.
  destruct (check_winner_run h data l g Hdata Hl Hlen)
    as (winner & line & Hr & Hcases).
  exists winner, (bool_decide (winner ≠ None)), line, (winner_name_of winner).
  split; [done|]. rewrite bool_decide_eq_true.
  destruct Hcases as [(i & v & Hf & -> & ->)|[(Hnw & Hne & -> & ->)|
                                              (Hnw & He & -> & ->)]].
  - pose proof (first_win_has_win g i v Hf) as Hw.
    split; [split; [by left | done]|]. split.
    + intros i'. split.
      * intros [= <-]. by exists v.
      * intros [v' Hf']. by destruct (first_win_unique _ _ _ _ _ Hf Hf') as [-> _].
    + intros v'. split.
      * intros [= <-]. left. by exists i.
      * intros [[i' Hf']|(_ & ? & _)]; [|done].
        by destruct (first_win_unique _ _ _ _ _ Hf Hf') as [_ ->].
  - split; [split; [by right | done]|]. split.
    + intros i. split; [done|]. intros [v Hf]. destruct Hnw.
      by eapply first_win_has_win.
    + intros v. split.
      * intros [= <-]. by right.
      * intros [[i Hf]|(-> & _)]; [|done]. destruct Hnw.
        by eapply first_win_has_win.
  - split; [split; [done | by intros [?|?]]|]. split.
    + intros i. split; [done|]. intros [v Hf]. destruct Hnw.
      by eapply first_win_has_win.
    + intros v. split; [done|].
      intros [[i Hf]|(_ & _ & ?)]; [|done]. destruct Hnw.
      by eapply first_win_has_win.
Qed.

Lemma check_winner_result_witness :
  ∃ winner over line name,
    check_winner (request 1 PLAYER_X None) (heap_of won_grid) =
      (Ret (WinnerResult winner over line name), heap_of won_grid) ∧
    (over = true ↔ terminal won_grid) ∧
    (∀ i, line = Some i ↔ ∃ v, first_win won_grid i v) ∧
    (∀ v, winner = Some v ↔
          (∃ i, first_win won_grid i v) ∨
          (v = DRAW ∧ ¬ has_win won_grid ∧ ¬ has_empty won_grid)).
Proof.
  apply (check_winner_result (heap_of won_grid) _ 1%positive won_grid);
    reflexivity.
Defined.

(** X17: on a 9-cell grid of X, O and empty cells the [winner_name] of
    [check_winner] is 'Player X' or 'Player O' exactly when that player
    holds the first completed line, 'Draw' exactly when the grid is full
    without a line, and absent exactly when the game goes on. *)
Theorem check_winner_names (h : heap) data l g :
  p_grid data = Some l → h !! l = Some g → valid_grid g →
  ∃ winner over line name,
    check_winner (Some data) h =
      (Ret (WinnerResult winner over line name), h) ∧
    (name = Some "Player X"%string ↔ ∃ i, first_win g i PLAYER_X) ∧
    (name = Some "Player O"%string ↔ ∃ i, first_win g i PLAYER_O) ∧
    (name = Some "Draw"%string ↔ ¬ has_win g ∧ ¬ has_empty g) ∧
    (name = None ↔ ¬ has_win g ∧ has_empty g).
Proof.
  intros Hdata Hl [Hlen Hall].
  destruct (check_winner_run h data l g Hdata Hl Hlen)
    as (winner & line & Hr & Hcases).
  exists winner, (bool_decide (winner ≠ None)), line, (winner_name_of winner).
  split; [done|].
  destruct Hcases as [(i & v & Hf & -> & ->)|[(Hnw & Hne & -> & ->)|
                                              (Hnw & He & -> & ->)]].
  - pose proof (first_win_has_win g i v Hf) as Hw.
    assert (valid_player v) as Hv.
    { destruct Hf as [(c & _ & Hc & _) _].
      apply list_elem_of_lookup_2 in Hc. rewrite Forall_forall in Hall.
      destruct (Hall _ Hc) as [?|[?|?]]; simplify_eq; [by left | by right]. }
    assert (∀ v', (∃ i', first_win g i' v') ↔ v' = v) as Hiff.
    { intros v'. split; [|intros ->; by exists i].
      intros [i' Hf']. by destruct (first_win_unique _ _ _ _ _ Hf Hf'). }
    rewrite !Hiff.
    destruct Hv as [->| ->];
      [change (winner_name_of (Some PLAYER_X)) with (Some "Player X"%string)
      |change (winner_name_of (Some PLAYER_O)) with (Some "Player O"%string)];
      split_and!; split; done || (by intros [? ?]).
  - assert (∀ v', (∃ i', first_win g i' v') ↔ False) as Hiff.
    { intros v'. split; [|done]. intros [i' Hf']. destruct Hnw.
      by eapply first_win_has_win. }
    rewrite !Hiff.
    change (winner_name_of (Some DRAW)) with (Some "Draw"%string).
    split_and!; split; done || (by intros [? ?]).
  - assert (∀ v', (∃ i', first_win g i' v') ↔ False) as Hiff.
    { intros v'. split; [|done]. intros [i' Hf']. destruct Hnw.
      by eapply first_win_has_win. }
    rewrite !Hiff. change (winner_name_of None) with (@None string).
    split_and!; split; done || (by intros [? ?]).
Qed.

Lemma check_winner_names_witness :
  ∃ winner over line name,
    check_winner (request 1 PLAYER_X None) (heap_of won_grid) =
      (Ret (WinnerResult winner over line name), heap_of won_grid) ∧
    (name = Some "Player X"%string ↔ ∃ i, first_win won_grid i PLAYER_X) ∧
    (name = Some "Player O"%string ↔ ∃ i, first_win won_grid i PLAYER_O) ∧
    (name = Some "Draw"%string ↔ ¬ has_win won_grid ∧ ¬ has_empty won_grid) ∧
    (name = None ↔ ¬ has_win won_grid ∧ has_empty won_grid).
Proof.
  apply (check_winner_names (heap_of won_grid) _ 1%positive won_grid);
    [reflexivity | reflexivity |].
  valid_grid_tac.
Defined.

(** X18: [check_winner] does not validate cell values: a first completed
    line of a mark other than 1 and 2 ends the game with that mark as
    winner and its line as [winning_index]; the name is 'Draw' when the
    mark is 0 and absent otherwise. *)
Theorem check_winner_unchecked_marks (h : heap) data l g i v :
  p_grid data = Some l → h !! l = Some g → length g = 9%nat →
  first_win g i v → v ≠ PLAYER_X → v ≠ PLAYER_O →
  check_winner (Some data) h =
    (Ret (WinnerResult (Some v) true (Some i)
            (if decide (v = DRAW) then Some "Draw"%string else None)), h).
Proof.
  intros Hdata Hl Hlen Hf HX HO.
  destruct (check_winner_run h data l g Hdata Hl Hlen)
    as (winner & line & -> & [(i' & v' & Hf' & -> & ->)|
                              [(Hnw & _)|(Hnw & _)]]);
    [|destruct Hnw; by eapply first_win_has_win..].
  destruct (first_win_unique _ _ _ _ _ Hf Hf') as [<- <-].
  do 3 f_equal. unfold winner_name_of.
  rewrite !decide_False by congruence.
  destruct (decide (v = DRAW)) as [->|Hne]; [done|].
  by rewrite decide_False by congruence.
Qed.

Lemma check_winner_unchecked_marks_witness :
  check_winner (request 1 PLAYER_X None) (heap_of odd_grid) =
    (Ret (WinnerResult (Some 7) true (Some 0%nat)
            (if decide (7 = DRAW) then Some "Draw"%string else None)),
     heap_of odd_grid).
Proof.
  apply (check_winner_unchecked_marks (heap_of odd_grid) _ 1%positive odd_grid).
  - reflexivity.
  - reflexivity.
  - reflexivity.
  - split; [by exists (0, 1, 2)%nat | intros; lia].
  - discriminate.
  - discriminate.
Defined.

(** X19: [check_winner] answers 400 with its own message when there is no
    payload, when the grid is missing, and when the grid has not exactly 9
    elements; the heap is left as it was. *)
Theorem check_winner_rejects (h : heap) :
  check_winner None h = (Ret (WinnerFailure 400 "No data provided"), h) ∧
  (∀ data, p_grid data = None →
     check_winner (Some data) h =
       (Ret (WinnerFailure 400 "Missing required field: grid"), h)) ∧
  (∀ data l g, p_grid data = Some l → h !! l = Some g → length g ≠ 9%nat →
     check_winner (Some data) h =
       (Ret (WinnerFailure 400 "Grid must have exactly 9 elements"), h)).
Proof.
  split; [done|]. split.
  - intros data Hdata. unfold check_winner, try_except. by rewrite Hdata.
  - intros data l g Hdata Hl Hlen. unfold check_winner, try_except.
    rewrite Hdata, bind_run, (deref_run l h g Hl).
    by destruct (decide (length g ≠ 9%nat)).
Qed.

Lemma check_winner_rejects_witness :
  check_winner (Some {| p_grid := None; p_ai_player := None; p_mode := None |})
    (heap_of won_grid) =
    (Ret (WinnerFailure 400 "Missing required field: grid"), heap_of won_grid) ∧
  check_winner (request 1 PLAYER_X None) (heap_of [None; None]) =
    (Ret (WinnerFailure 400 "Grid must have exactly 9 elements"),
     heap_of [None; None]).
Proof.
  split.
  - by apply (check_winner_rejects (heap_of won_grid)).
  - apply (check_winner_rejects (heap_of [None; None])) with (l := 1%positive)
      (g := [None; None]); [reflexivity | reflexivity | simpl; lia].
Defined.

(** X20: when [check_winner] reports [game_over] false for a grid of X, O
    and empty cells, [ai_move] on the same grid answers, for a valid player
    and in every mode, with a move onto an empty square. *)
Theorem ai_move_when_not_over
    (h : heap) data l g winner line name player mode fuel rnd :
  p_grid data = Some l → h !! l = Some g → valid_grid g →
  check_winner (Some data) h = (Ret (WinnerResult winner false line name), h) →
  valid_player player →
  default "difficult"%string mode ∈ values GAME_MODES →
  (n_empty g < fuel)%nat →
  ∃ m h', ai_move fuel rnd (request l player mode) h =
            (Ret (Success m (<[m := Some player]> g) player), h') ∧
          g !! m = Some None ∧ h ⊆ h'.
Proof.
  intros Hdata Hl Hg Hcheck Hp Hmode Hfuel.
  destruct (check_winner_run h data l g Hdata Hl (proj1 Hg))
    as (winner' & line' & Hr & Hcases).
  rewrite Hr in Hcheck. injection Hcheck as -> Hover _ _.
  apply bool_decide_eq_false in Hover.
  destruct Hcases as [(i & v & _ & -> & _)|[(_ & _ & -> & _)|(Hnw & He & _)]];
    [by destruct Hover..|].
  destruct (ai_move_valid_run fuel rnd l player mode h g Hl Hg He Hp Hmode Hfuel)
    as (resp & h' & Hrun & Hsub & [(m & Hm & ->)|(_ & Hw & _)]); [|done].
  by exists m, h'.
Qed.

Lemma ai_move_when_not_over_witness :
  ∃ m h', ai_move 7 draws (request 1 PLAYER_O None) (heap_of open_grid) =
            (Ret (Success m (<[m := Some PLAYER_O]> open_grid) PLAYER_O), h') ∧
          open_grid !! m = Some None ∧ heap_of open_grid ⊆ h'.
Proof.
  apply (ai_move_when_not_over (heap_of open_grid)
           {| p_grid := Some 1%positive; p_ai_player := None; p_mode := None |}
           1 open_grid None None None PLAYER_O None 7 draws).
  - reflexivity.
  - reflexivity.
  - valid_grid_tac.
  - reflexivity.
  - by right.
  - apply difficult_valid.
  - vm_compute. lia.
Defined.

(** X21: in difficult mode the answer to a request that passes validation
    does not depend on the random draws, unless the board is empty. *)
Theorem ai_move_difficult_deterministic (h : heap) l g player fuel rnd rnd' :
  h !! l = Some g → length g = 9%nat → has_empty g → n_empty g ≠ 9%nat →
  valid_player player →
  ai_move fuel rnd (request l player (Some "difficult"%string)) h =
  ai_move fuel rnd' (request l player (Some "difficult"%string)) h.
Proof.
  intros Hl Hlen He Hn Hp.
  rewrite !(ai_move_prefix fuel _ l player (Some "difficult"%string) h g
              Hl Hlen He Hp difficult_valid).
  unfold try_except. rewrite !bind_run. simpl default.
  rewrite !(choose_move_difficult _ _ _ _ _ _ g) by apply lookup_insert_eq.
  by rewrite bool_decide_eq_false_2 by done.
Qed.

Lemma ai_move_difficult_deterministic_witness :
  ai_move 7 draws (request 1 PLAYER_O (Some "difficult"%string))
    (heap_of open_grid) =
  ai_move 7 {| choice_draw := 3; random_lt_half := true; randint_draw := 5 |}
    (request 1 PLAYER_O (Some "difficult"%string)) (heap_of open_grid).
Proof.
  apply (ai_move_difficult_deterministic (heap_of open_grid) 1 open_grid
           PLAYER_O 7).
  - reflexivity.
  - reflexivity.
  - by exists 2%nat.
  - vm_compute. lia.
  - by right.
Defined.
